(** * ChatBot server: retrieval and streaming relay

    A shallow embedding of [src/server.ts]: the cosine scorer
    [cosineSimilarity], the retriever [retrieveContext] and the
    [/chat-stream] request handler, with the properties the design
    document states about them.

    JavaScript numbers are IEEE 754 binary64 values; they are modelled by
    Rocq's primitive floats, whose operations are the same binary64
    operations (round to nearest, ties to even, one NaN). *)

From Stdlib Require Import ZArith String Ascii Bool Lia List Permutation Sorted.
From Stdlib Require Import Floats.
Import ListNotations.

Set Implicit Arguments.

(** ** Completions: a call returns normally or throws *)

(** A thrown JavaScript value is identified by the name of its error. *)
Definition error := string.

Inductive completion (A : Type) : Type :=
| Normal (v : A)
| Throw (e : error).

Arguments Normal {A} v.
Arguments Throw {A} e.

Definition bind {A B} (c : completion A) (k : A -> completion B) : completion B :=
  match c with
  | Normal v => k v
  | Throw e => Throw e
  end.

Declare Scope completion_scope.
Delimit Scope completion_scope with completion.
Notation "x <- c ;; k" := (bind c (fun x => k))
  (at level 61, c at next level, right associativity) : completion_scope.
Local Open Scope completion_scope.

(** ** Numbers *)

Module Number.

Definition number := float.

(** Reading [a[i]]: an index past the end yields [undefined], which the
    arithmetic operators convert to NaN. *)
Definition index (a : list number) (i : nat) : number := nth i a nan.

End Number.
Import Number.

Local Open Scope float_scope.

(** ** The similarity scorer *)

(** The three accumulators of the loop in [cosineSimilarity]. *)
Record sums := { dot : number; magA : number; magB : number }.

Definition sums0 : sums := {| dot := 0; magA := 0; magB := 0 |}.

(** One iteration of the loop body at index [i]. *)
Definition accumulate (a b : list number) (s : sums) (i : nat) : sums :=
  {| dot := dot s + index a i * index b i;
     magA := magA s + index a i * index a i;
     magB := magB s + index b i * index b i |}.

(** [for (let i = 0; i < a.length; i++)] *)
Definition loop (a b : list number) : sums :=
  fold_left (accumulate a b) (seq 0 (length a)) sums0.

Definition cosineSimilarity (a b : list number) : completion number :=
  let s := loop a b in
  Normal (dot s / (sqrt (magA s) * sqrt (magB s))).

(** ** The document store and the retriever *)

Record Document := { content : string; embedding : list number }.

(** The objects built by [documents.map(...)] in [retrieveContext]. *)
Module Scored.
Record t := { content : string; score : number }.
End Scored.

(** The line-feed separator ["\n"]. *)
Definition newline : string := String (ascii_of_nat 10) EmptyString.

(** [Array.prototype.join] on an array of strings. *)
Fixpoint join (sep : string) (l : list string) : string :=
  match l with
  | [] => EmptyString
  | [x] => x
  | x :: l' => x ++ sep ++ join sep l'
  end.

(** [Array.prototype.slice(start, end)] for non-negative indices; an end
    past the length of the array is clamped to it. *)
Definition slice {A} (l : list A) (start stop : nat) : list A :=
  firstn (stop - start) (skipn start l).

(** [Array.prototype.map] with a callback that may throw. *)
Fixpoint map_completion {A B} (f : A -> completion B) (l : list A) : completion (list B) :=
  match l with
  | [] => Normal []
  | x :: l' =>
      y <- f x ;;
      ys <- map_completion f l' ;;
      Normal (y :: ys)
  end.

(** *** [Array.prototype.sort]

    ECMAScript's [SortCompare] calls the comparator and treats a NaN
    result as [+0]. When the comparator is consistent, the result of
    [sort] is the stable sort; the stable insertion sort below is that
    sort. It decides on the sign of [SortCompare] only, and an element
    moves behind another one only when the comparator says it is
    strictly greater. When the comparator is not consistent (here: when
    a score is NaN, which then compares equal to every score) ECMAScript
    leaves the order to the engine; the model then still is the insertion
    sort, which leaves an array alone in which no element is strictly
    greater than its successor, as V8's sort does with an array that is
    one run. *)
Section Sort.
Variable A : Type.
Variable comparefn : A -> A -> number.

Definition SortCompare (x y : A) : number :=
  let v := comparefn x y in
  if is_nan v then 0 else v.

Fixpoint insert (x : A) (l : list A) : list A :=
  match l with
  | [] => [x]
  | y :: l' =>
      if 0 <? SortCompare x y then y :: insert x l' else x :: l
  end.

Fixpoint sort (l : list A) : list A :=
  match l with
  | [] => []
  | x :: l' => insert x (sort l')
  end.
End Sort.

(** The comparator [(a, b) => b.score - a.score]. *)
Definition by_score_desc (a b : Scored.t) : number :=
  Scored.score b - Scored.score a.

Section Retriever.
(** The remote embedding capability behind [embedText]; the awaited
    call either yields a vector or rejects. *)
Variable embedText : string -> completion (list number).

Definition score_document (queryEmbedding : list number) (doc : Document)
  : completion Scored.t :=
  s <- cosineSimilarity queryEmbedding (embedding doc) ;;
  Normal {| Scored.content := content doc; Scored.score := s |}.

(** [documents] is the module-level array filled by [seedDocuments]. *)
Definition retrieveContext (documents : list Document) (query : string)
  : completion string :=
  queryEmbedding <- embedText query ;;
  scored <- map_completion (score_document queryEmbedding) documents ;;
  let sorted := sort by_score_desc scored in
  Normal (join newline (map Scored.content (slice sorted 0 2))).
End Retriever.

(** ** The streaming relay: the [/chat-stream] handler *)

(** A chunk of the completion stream, as far as the handler reads it:
    [chunk.choices[0]?.delta?.content]. *)
Module Chunk.
Record Delta := { content : option string }.
Record Choice := { delta : option Delta }.
Record t := { choices : list Choice }.
End Chunk.

(** The async iterable returned by the completion call: finitely many
    chunks, then normal completion or a failure. *)
Inductive stream : Type :=
| Done
| Yield (chunk : Chunk.t) (rest : stream)
| Fail (e : error).

(** What the handler does to the response, oldest first. *)
Inductive res_event : Type :=
| SetHeader (name value : string)
| Write (data : string)
| End.

(** The state the handler acts on: the response and the error console. *)
Record world := { res : list res_event; console : list error }.

Definition action (A : Type) : Type := world -> completion A * world.

Module Action.
Definition ret {A} (v : A) : action A := fun w => (Normal v, w).

Definition throw {A} (e : error) : action A := fun w => (Throw e, w).

Definition bind {A B} (c : action A) (k : A -> action B) : action B :=
  fun w =>
    match c w with
    | (Normal v, w') => k v w'
    | (Throw e, w') => (Throw e, w')
    end.

(** [try { body } catch (err) { handler }] *)
Definition try_catch {A} (body : action A) (handler : error -> action A) : action A :=
  fun w =>
    match body w with
    | (Normal v, w') => (Normal v, w')
    | (Throw e, w') => handler e w'
    end.

(** [await c] for a call that resolves or rejects without touching the
    response. *)
Definition await {A} (c : completion A) : action A := fun w => (c, w).

Definition emit (ev : res_event) : action unit :=
  fun w => (Normal tt, {| res := res w ++ [ev]; console := console w |}).

Definition console_error (err : error) : action unit :=
  fun w => (Normal tt, {| res := res w; console := console w ++ [err] |}).
End Action.

Declare Scope action_scope.
Delimit Scope action_scope with action.
Notation "x <- c ;; k" := (Action.bind c (fun x => k))
  (at level 61, c at next level, right associativity) : action_scope.
Notation "c ;; k" := (Action.bind c (fun _ => k))
  (at level 61, right associativity) : action_scope.

Section ChatStream.
Local Open Scope action_scope.

(** The remote completion capability with [stream: true]. *)
Variable create_stream : string -> completion stream.

(** [chunk.choices[0]?.delta?.content] *)
Definition token_of (chunk : Chunk.t) : option string :=
  match nth_error (Chunk.choices chunk) 0 with
  | None => None
  | Some choice =>
      match Chunk.delta choice with
      | None => None
      | Some d => Chunk.content d
      end
  end.

(** Truthiness of [token]: a non-empty string. *)
Definition truthy (token : option string) : bool :=
  match token with
  | Some (String _ _) => true
  | _ => false
  end.

Definition token_text (token : option string) : string :=
  match token with
  | Some s => s
  | None => EmptyString
  end.

(** [for await (const chunk of stream) { ... }] *)
Fixpoint for_await (s : stream) : action unit :=
  match s with
  | Done => Action.ret tt
  | Yield chunk rest =>
      let token := token_of chunk in
      (if truthy token then Action.emit (Write (token_text token)) else Action.ret tt) ;;
      for_await rest
  | Fail e => Action.throw e
  end.

Definition chat_stream (message : string) : action unit :=
  Action.try_catch
    (Action.emit (SetHeader "Content-Type" "text/event-stream") ;;
     Action.emit (SetHeader "Cache-Control" "no-cache") ;;
     Action.emit (SetHeader "Connection" "keep-alive") ;;
     s <- Action.await (create_stream message) ;;
     for_await s ;;
     Action.emit End)
    (fun err =>
       Action.console_error err ;;
       Action.emit End).
End ChatStream.

Definition world0 : world := {| res := []; console := [] |}.

(** The body of the response: the data written, in order. *)
Definition written (evs : list res_event) : list string :=
  flat_map (fun ev => match ev with Write d => [d] | _ => [] end) evs.

Definition is_end (ev : res_event) : bool :=
  match ev with End => true | _ => false end.

(** ** State and exceptions

    The rest of the server updates the document store or answers a
    request: a computation takes a state and returns a completion with the
    state it leaves. *)

Module Eff.
Definition t (S A : Type) : Type := S -> completion A * S.

Definition ret {S A} (v : A) : t S A := fun s => (Normal v, s).

Definition throw {S A} (e : error) : t S A := fun s => (Throw e, s).

Definition bind {S A B} (c : t S A) (k : A -> t S B) : t S B :=
  fun s =>
    match c s with
    | (Normal v, s') => k v s'
    | (Throw e, s') => (Throw e, s')
    end.

(** [try { body } catch (error) { handler }] *)
Definition try_catch {S A} (body : t S A) (handler : error -> t S A) : t S A :=
  fun s =>
    match body s with
    | (Normal v, s') => (Normal v, s')
    | (Throw e, s') => handler e s'
    end.

(** [await c] for a call that leaves the state alone. *)
Definition await {S A} (c : completion A) : t S A := fun s => (c, s).

Definition modify {S} (f : S -> S) : t S unit := fun s => (Normal tt, f s).
End Eff.

Declare Scope eff_scope.
Delimit Scope eff_scope with eff.
Notation "x <- c ;; k" := (Eff.bind c (fun x => k))
  (at level 61, c at next level, right associativity) : eff_scope.
Notation "c ;; k" := (Eff.bind c (fun _ => k))
  (at level 61, right associativity) : eff_scope.

(** ** [embedText] *)

(** The response of [openai.embeddings.create], as far as it is read. *)
Module Embedding.
Record Item := { embedding : list number }.
Record Response := { data : list Item }.
End Embedding.

Section EmbedText.
(** [openai.embeddings.create({ model, input })] *)
Variable embeddings_create : string -> string -> completion Embedding.Response.

(** [embedding.data[0].embedding]: reading [embedding] of a first entry
    that is not there is a TypeError. *)
Definition embedText (text : string) : completion (list number) :=
  embedding <- embeddings_create "text-embedding-3-small" text ;;
  match nth_error (Embedding.data embedding) 0 with
  | None => Throw "TypeError"%string
  | Some item => Normal (Embedding.embedding item)
  end.
End EmbedText.

(** ** [seedDocuments] *)

(** The texts of [seedDocuments]. *)
Definition texts : list string :=
  ["REST APIs use HTTP methods and are stateless.";
   "AWS Lambda is a serverless compute service.";
   "Express.js is a minimal Node.js web framework."]%string.

Section Seed.
Local Open Scope eff_scope.

Variable embed : string -> completion (list number).

(** [for (const text of texts) { documents.push({ content: text,
    embedding: await embedText(text) }) }], on the store [documents]. *)
Fixpoint seed_loop (texts : list string) : Eff.t (list Document) unit :=
  match texts with
  | [] => Eff.ret tt
  | text :: rest =>
      e <- Eff.await (embed text) ;;
      Eff.modify (fun documents => documents ++ [{| content := text; embedding := e |}]) ;;
      seed_loop rest
  end.

Definition seedDocuments : Eff.t (list Document) unit := seed_loop texts.
End Seed.

(** ** [validateChatInput] *)

Unset Elimination Schemes.

(** The values a JSON body can hold. *)
Inductive json : Type :=
| JNull
| JBool (b : bool)
| JNumber (n : number)
| JString (s : string)
| JArray (items : list json)
| JObject (fields : list (string * json)).

Set Elimination Schemes.

(** [!message], for the [message] member of the body; [None] when the
    body has no such member. *)
Definition falsy (message : option json) : bool :=
  match message with
  | None => true
  | Some JNull => true
  | Some (JBool b) => negb b
  | Some (JNumber n) => is_zero n || is_nan n
  | Some (JString s) => match s with EmptyString => true | _ => false end
  | Some (JArray _) => false
  | Some (JObject _) => false
  end.

(** White space and line terminators of ECMAScript among the code units
    below 256, the characters a [string] here is made of: TAB, LF, VT, FF,
    CR, SP and NBSP. *)
Definition is_whitespace (c : ascii) : bool :=
  let n := nat_of_ascii c in
  ((9 <=? n) && (n <=? 13) || (n =? 32) || (n =? 160))%nat.

Fixpoint drop_while (p : ascii -> bool) (l : list ascii) : list ascii :=
  match l with
  | [] => []
  | c :: l' => if p c then drop_while p l' else l
  end.

(** [String.prototype.trim] *)
Definition trim (s : string) : string :=
  string_of_list_ascii
    (rev (drop_while is_whitespace
            (rev (drop_while is_whitespace (list_ascii_of_string s))))).

(** The middleware answers the request or calls [next()]. *)
Inductive verdict : Type :=
| Rejected (status : nat) (message : string)
| Next.

Definition validateChatInput (message : option json) : verdict :=
  if falsy message then Rejected 400 "Message field is required"
  else
    match message with
    | Some (JString s) =>
        if (String.length (trim s) =? 0)%nat then Rejected 400 "Message cannot be empty"
        else Next
    | _ => Rejected 400 "Message must be a string"
    end.

(** ** The [/chat] route *)

(** The JSON bodies the routes send. *)
Inductive body : Type :=
| ErrorBody (message : string)
| ReplyBody (reply : option string).

(** [res.status(code)] and [res.json(body)]. *)
Inductive http_event : Type :=
| Status (code : nat)
| Json (b : body).

Module ChatMessage.
Record t := { role : string; content : string }.
End ChatMessage.

(** The argument of [openai.chat.completions.create] in the [/chat]
    handler. *)
Module Request.
Record t := {
  model : string;
  max_tokens : nat;
  temperature : number;
  messages : list ChatMessage.t
}.
End Request.

(** The chat completion, as far as the handler reads it:
    [completion.choices[0].message.content] and [completion.usage]. *)
Module Completion.
Record Message := { content : option string }.
Record Choice := { message : Message }.
Record t (Usage : Type) := { choices : list Choice; usage : Usage }.
End Completion.

Section ChatRoute.
Local Open Scope eff_scope.

(** The token-count metadata, which the handler only logs. *)
Variable Usage : Type.

(** What the handler writes to the console. *)
Inductive log_entry : Type :=
| TokensUsed (usage : Usage)
| OpenAIError (err : error).

(** What a request to the route acts on: its response, the console and
    the routes of the application, each oldest first. *)
Record server := {
  response : list http_event;
  log : list log_entry;
  routes : list (string * string)
}.

Definition respond (ev : http_event) : Eff.t server unit :=
  Eff.modify (fun s => {| response := response s ++ [ev]; log := log s; routes := routes s |}).

Definition console_log (entry : log_entry) : Eff.t server unit :=
  Eff.modify (fun s => {| response := response s; log := log s ++ [entry]; routes := routes s |}).

(** [app.post(path, ...)] *)
Definition app_post (path : string) : Eff.t server unit :=
  Eff.modify (fun s => {| response := response s; log := log s;
                          routes := routes s ++ [("POST"%string, path)] |}).

Variable embed : string -> completion (list number).
Variable create : Request.t -> completion (Completion.t Usage).

(** The request of the [/chat] handler for a retrieved context. *)
Definition chat_request (context message : string) : Request.t :=
  {| Request.model := "gpt-4o-mini";
     Request.max_tokens := 150;
     Request.temperature := 0x1.6666666666666p-1;
     Request.messages :=
       [{| ChatMessage.role := "system";
           ChatMessage.content :=
             ("Answer using the context below." ++ newline ++ newline ++ context)%string |};
        {| ChatMessage.role := "user"; ChatMessage.content := message |}] |}.

(** The handler of [/chat]. The call [app.post("/chat-stream", ...)]
    stands in its [try] block, after the completion call; reading
    [message] of a first choice that is not there is a TypeError. *)
Definition chat (documents : list Document) (message : string) : Eff.t server unit :=
  Eff.try_catch
    (context <- Eff.await (retrieveContext embed documents message) ;;
     completion <- Eff.await (create (chat_request context message)) ;;
     app_post "/chat-stream" ;;
     reply <- match nth_error (Completion.choices completion) 0 with
              | None => Eff.throw "TypeError"%string
              | Some choice => Eff.ret (Completion.content (Completion.message choice))
              end ;;
     console_log (TokensUsed (Completion.usage completion)) ;;
     respond (Json (ReplyBody reply)))
    (fun err =>
       console_log (OpenAIError err) ;;
       respond (Status 500) ;;
       respond (Json (ErrorBody "AI service failed"))).

(** [app.post("/chat", validateChatInput, handler)]: the handler runs when
    the middleware calls [next()], which it does for strings only. *)
Definition chat_route (documents : list Document) (message : option json)
  : Eff.t server unit :=
  match validateChatInput message with
  | Rejected code msg =>
      respond (Status code) ;;
      respond (Json (ErrorBody msg))
  | Next =>
      match message with
      | Some (JString s) => chat documents s
      | _ => Eff.ret tt
      end
  end.
End ChatRoute.

Arguments OpenAIError {Usage} err.

Definition server0 (Usage : Type) : server Usage :=
  {| response := []; log := []; routes := [] |}.

(** * Vocabulary of the properties *)

(** ** The binary64 format, at the level of [SpecFloat] *)

Module Binary64.

Local Open Scope Z_scope.

(** The exponent of the last digit kept for a value of magnitude [2 ^ e]:
    [fexp] at precision 53 and minimal exponent [-1074]. *)
Definition fexp64 (e : Z) : Z := Z.max (e - 53) (-1074).

(** [x] is a non-zero number or an infinity, with the sign [s]. *)
Definition has_sign (s : bool) (x : spec_float) : Prop :=
  match x with
  | S754_finite s' _ _ | S754_infinity s' => s' = s
  | _ => False
  end.

(** A value of the form [R * 2 ^ eR] within [2 ^ -40] of one. *)
Definition near_one (x : spec_float) : Prop :=
  exists R eR,
    x = S754_finite false R eR
    /\ ((eR = -53 /\ 2 ^ 53 - 2 ^ 13 <= Zpos R < 2 ^ 53)
        \/ (eR = -52 /\ 2 ^ 52 <= Zpos R <= 2 ^ 52 + 2 ^ 12)).

End Binary64.

(** ** Zeros, NaN and finite values *)

Module Float64.

(** [x] is [+0] or [-0]. *)
Definition zero_spec (x : spec_float) : Prop := exists s, x = S754_zero s.

(** [x] is a zero or NaN. *)
Definition zero_or_nan_spec (x : spec_float) : Prop :=
  x = S754_nan \/ zero_spec x.

Definition zero_or_nan (x : float) : Prop := x = nan \/ is_zero x = true.

(** A finite value is a zero or has a mantissa and an exponent. *)
Definition finite_spec (x : spec_float) : Prop :=
  match x with
  | S754_zero _ | S754_finite _ _ _ => True
  | _ => False
  end.

End Float64.

(** ** The loop of [cosineSimilarity], by recursion on the first vector *)

Module Loop.

(** The loop body for components [x] of [a] and [y] of [b]. *)
Definition add_pair (s : sums) (x y : number) : sums :=
  {| dot := dot s + x * y; magA := magA s + x * x; magB := magB s + y * y |}.

(** The loop started from the sums [s]: [b] is read at the indices of
    [a], NaN standing for the components it lacks. *)
Fixpoint run (a b : list number) (s : sums) : sums :=
  match a with
  | [] => s
  | x :: a' => run a' (tl b) (add_pair s x (hd nan b))
  end.

(** The sums with the two magnitudes exchanged. *)
Definition swap (s : sums) : sums :=
  {| dot := dot s; magA := magB s; magB := magA s |}.

End Loop.

(** ** Vectors and tolerance *)

(** A vector all of whose components are [+0] or [-0]. *)
Definition zero_vector (a : list number) : Prop :=
  Forall (fun x => is_zero x = true) a.

(** The double nearest to [1e-9], the tolerance of the design's tests. *)
Definition tolerance : number := 0x1.12e0be826d695p-30.

(** [Math.abs(x - y) <= 1e-9] *)
Definition close_to (x y : number) : bool := abs (x - y) <=? tolerance.

(** ** Streams and what the relay forwards *)

Module Relay.

(** A completion stream that yields the chunks [cs] and then goes on as
    [tail]. *)
Definition yields (cs : list Chunk.t) (tail : stream) : stream :=
  fold_right Yield tail cs.

(** The text carried by a chunk; none when the content is absent. *)
Definition chunk_text (chunk : Chunk.t) : string := token_text (token_of chunk).

(** The texts the relay passes on: those of the chunks with a truthy token. *)
Definition forwarded (cs : list Chunk.t) : list string :=
  flat_map (fun chunk => if truthy (token_of chunk) then [chunk_text chunk] else []) cs.

(** The three headers set before the completion call. *)
Definition headers : list res_event :=
  [SetHeader "Content-Type" "text/event-stream";
   SetHeader "Cache-Control" "no-cache";
   SetHeader "Connection" "keep-alive"].

(** A chunk whose first choice carries [content]. *)
Definition chunk_of (content : option string) : Chunk.t :=
  {| Chunk.choices := [{| Chunk.delta := Some {| Chunk.content := content |} |}] |}.

(** The concatenation of a list of strings. *)
Definition concat_all (l : list string) : string :=
  fold_right append EmptyString l.

End Relay.

(** The chunks of the design's streaming scenario. *)
Definition scenario_chunks : list Chunk.t :=
  map (fun s => Relay.chunk_of (Some s)) ["The"; " answer"; " is"; " 4."]%string.

(** ** Candidates and their ranking *)

Module Ranking.

(** The value [cosineSimilarity] returns. *)
Definition similarity (a b : list number) : number :=
  dot (loop a b) / (sqrt (magA (loop a b)) * sqrt (magB (loop a b))).

(** The candidates scored for the query vector [q], in store order. *)
Definition candidate (q : list number) (doc : Document) : Scored.t :=
  {| Scored.content := content doc; Scored.score := similarity q (embedding doc) |}.

Definition candidates (q : list number) (documents : list Document) : list Scored.t :=
  map (candidate q) documents.

(** A candidate together with its position in the store. *)
Abbreviation placed := (nat * Scored.t)%type (only parsing).

Definition tagged (scored : list Scored.t) : list placed :=
  combine (seq 0 (length scored)) scored.

(** The order of the ranking: by score, highest first, and by position in
    the store among candidates of equal score. *)
Definition ranks_before (x y : placed) : Prop :=
  (Scored.score (snd y) <? Scored.score (snd x)) = true
  \/ ((Scored.score (snd x) =? Scored.score (snd y)) = true /\ (fst x < fst y)%nat).

(** The comparator of [retrieveContext], on placed candidates. *)
Definition by_placed_score (x y : placed) : number := by_score_desc (snd x) (snd y).

Definition is_number (x : placed) : Prop := is_nan (Scored.score (snd x)) = false.

End Ranking.

(** The store of the design's retrieval scenario, with small vectors in
    place of embeddings. *)
Definition scenario_store : list Document :=
  [{| content := "cats are mammals"; embedding := [1; 0] |};
   {| content := "dogs are mammals"; embedding := [0.75; 0.25] |};
   {| content := "Paris is in France"; embedding := [0; 1] |}].

(** A store whose second document has a zero vector as its embedding. *)
Definition zero_store : list Document :=
  [{| content := "A"; embedding := [0; 1] |};
   {| content := "B"; embedding := [0; 0] |};
   {| content := "C"; embedding := [1; 0] |}].

(** ** Request bodies *)

(** A string made of white space only (the empty string included). *)
Definition blank (s : string) : bool :=
  forallb is_whitespace (list_ascii_of_string s).

(** ** The store and the routes *)

(** A document that carries the vector [embed] returns for its content. *)
Definition embedded (embed : string -> completion (list number)) (doc : Document) : Prop :=
  embed (content doc) = Normal (embedding doc).

Module Chat.

(** The state after the [catch] block of the [/chat] handler has run for
    the error [e]. *)
Definition failed {Usage : Type} (e : error) (s : server Usage) : server Usage :=
  {| response := response s ++ [Status 500; Json (ErrorBody "AI service failed")];
     log := log s ++ [OpenAIError e];
     routes := routes s |}.

(** The state after [app.post("/chat-stream", ...)]. *)
Definition registered {Usage : Type} (s : server Usage) : server Usage :=
  {| response := response s; log := log s;
     routes := routes s ++ [("POST", "/chat-stream")]%string |}.

End Chat.



(** ** Components that are not finite *)

(** [!Number.isFinite(x)]: NaN or an infinity. *)
Definition non_finite (x : number) : bool := is_nan x || is_infinity x.

Module NonFinite.

(** An infinity or NaN, at the level of [SpecFloat]. *)
Definition poisoned (x : spec_float) : Prop :=
  match x with
  | S754_infinity _ | S754_nan => True
  | _ => False
  end.

Definition poisoned_float (x : float) : Prop := poisoned (Prim2SF x).

(** The sums of a loop that has met a component that is not finite: the
    dot product and one of the two magnitudes are infinite or NaN. *)
Definition spoiled (s : sums) : Prop :=
  poisoned_float (dot s) /\ (poisoned_float (magA s) \/ poisoned_float (magB s)).

End NonFinite.

(** * Properties *)

(** ** Concrete runs of the scorer *)

Example cosine_orthogonal :
  cosineSimilarity [1; 0] [0; 1] = Normal 0.
Proof. vm_compute. reflexivity. Qed.

Example cosine_parallel :
  cosineSimilarity [3; 4] [6; 8] = Normal 1.
Proof. vm_compute. reflexivity. Qed.

Example cosine_shorter_first :
  cosineSimilarity [1] [1; 2] = Normal 1.
Proof. vm_compute. reflexivity. Qed.

Example cosine_longer_first :
  cosineSimilarity [1; 2] [1] = Normal nan.
Proof. vm_compute. reflexivity. Qed.

Example cosine_zero_vector :
  cosineSimilarity [0; 0] [1; 2] = Normal nan.
Proof. vm_compute. reflexivity. Qed.

Example cosine_underflow :
  cosineSimilarity [0x1p-600] [0x1p-400] = Normal infinity.
Proof. vm_compute. reflexivity. Qed.

Example cosine_overflow :
  cosineSimilarity [0x1p600] [0x1p600] = Normal nan.
Proof. vm_compute. reflexivity. Qed.

(** ** Facts about the binary64 format

    The encoding of finite values, rounding and comparison, at the level
    of the IEEE 754 specification [SpecFloat]. *)

Module Binary64Facts.

Import Binary64.

Local Open Scope Z_scope.

Lemma digits2_size m : digits2_pos m = Pos.size m.
Proof. induction m; simpl; congruence. Qed.

Lemma digits2_bounds m :
  2 ^ (Zpos (digits2_pos m) - 1) <= Zpos m < 2 ^ Zpos (digits2_pos m).
Proof.
  rewrite digits2_size. split.
  - pose proof (Pos.size_le m) as H.
    assert (H' : 2 ^ Zpos (Pos.size m) <= 2 * Zpos m).
    { change (2 * Zpos m) with (Zpos m~0). rewrite <- Pos2Z.inj_pow. exact H. }
    replace (Zpos (Pos.size m)) with (Z.succ (Zpos (Pos.size m) - 1)) in H' by lia.
    rewrite Z.pow_succ_r in H' by lia. lia.
  - pose proof (Pos.size_gt m) as H. rewrite <- Pos2Z.inj_pow. exact H.
Qed.

Lemma iter_pos_iter {A} (f : A -> A) n : forall x, iter_pos f n x = Pos.iter f x n.
Proof.
  induction n as [n IH|n IH|]; intros x; simpl; rewrite ?IH; try reflexivity.
  now rewrite !Pos.iter_swap.
Qed.

Lemma shr_1_m mrs : 0 <= shr_m mrs -> shr_m (shr_1 mrs) = Z.div2 (shr_m mrs).
Proof.
  destruct mrs as [m r s]. simpl. destruct m as [|[p|p|]|p]; simpl; try reflexivity; lia.
Qed.

Lemma iter_div2 n m : 0 <= m -> Pos.iter Z.div2 m n = m / 2 ^ Zpos n.
Proof.
  intros _. rewrite <- Z.shiftr_div_pow2 by lia. reflexivity.
Qed.

Lemma shr_m_iter n : forall mrs,
  0 <= shr_m mrs -> shr_m (iter_pos shr_1 n mrs) = shr_m mrs / 2 ^ Zpos n.
Proof.
  intros mrs H. rewrite iter_pos_iter, <- iter_div2 by exact H.
  revert mrs H. induction n as [|n IH] using Pos.peano_ind; intros mrs H.
  - simpl. now apply shr_1_m.
  - rewrite !Pos.iter_succ. rewrite <- IH by exact H. apply shr_1_m.
    rewrite IH by exact H. rewrite iter_div2 by exact H. apply Z.div_pos; lia.
Qed.

Lemma shr_m_of_loc m l : shr_m (shr_record_of_loc m l) = m.
Proof. destruct l as [|[]]; reflexivity. Qed.

Lemma fexp_eq e : fexp prec emax e = fexp64 e.
Proof. reflexivity. Qed.

(** The mantissa and exponent after [shr_fexp]. *)
Lemma shr_fexp_spec m e l :
  0 <= m ->
  let n := fexp64 (Zdigits2 m + e) - e in
  shr_m (fst (shr_fexp prec emax m e l)) = (if 0 <? n then m / 2 ^ n else m)
  /\ snd (shr_fexp prec emax m e l) = (if 0 <? n then e + n else e).
Proof.
  intros Hm n. unfold shr_fexp. rewrite fexp_eq. fold n.
  destruct n as [|p|p]; simpl; rewrite ?shr_m_of_loc; auto.
  rewrite shr_m_iter by (now rewrite shr_m_of_loc). now rewrite shr_m_of_loc.
Qed.

Lemma Zdigits2_pos m : Zdigits2 (Zpos m) = Zpos (digits2_pos m).
Proof. reflexivity. Qed.

(** Shifting a positive mantissa whose exponent is at least [emin] leaves
    a positive mantissa, with an exponent that is at least [emin]. *)
Lemma shr_fexp_pos m e l :
  -1074 <= e ->
  0 < shr_m (fst (shr_fexp prec emax (Zpos m) e l))
  /\ -1074 <= snd (shr_fexp prec emax (Zpos m) e l).
Proof.
  intros He. destruct (@shr_fexp_spec (Zpos m) e l) as [Hm He']; [lia|].
  rewrite Hm, He'. clear Hm He'. rewrite Zdigits2_pos.
  pose proof (digits2_bounds m) as [Hlo _].
  set (d := Zpos (digits2_pos m)) in *. unfold fexp64.
  destruct (Z.ltb_spec 0 (Z.max (d + e - 53) (-1074) - e)) as [Hn|Hn]; [|lia].
  assert (Hmax : Z.max (d + e - 53) (-1074) = d + e - 53) by lia.
  rewrite Hmax in *. split; [|lia].
  replace (d + e - 53 - e) with (d - 53) by lia.
  apply Z.div_str_pos. split; [apply Z.pow_pos_nonneg; lia|].
  transitivity (2 ^ (d - 1)); [apply Z.pow_le_mono_r; lia|exact Hlo].
Qed.

Lemma round_nearest_even_pos m l : 0 < m -> 0 < round_nearest_even m l.
Proof.
  intros H. destruct l as [|[]]; simpl; try lia. destruct (Z.even m); lia.
Qed.

(** Rounding a non-zero mantissa whose exponent is at least [emin] gives a
    non-zero value of the same sign, or an infinity of that sign. *)
Lemma binary_round_aux_sign s m e l :
  -1074 <= e -> has_sign s (binary_round_aux prec emax s (Zpos m) e l).
Proof.
  intros He. unfold binary_round_aux.
  destruct (@shr_fexp_pos m e l He) as [H1 H2].
  destruct (shr_fexp prec emax (Z.pos m) e l) as [mrs' e']. simpl in H1, H2.
  pose proof (@round_nearest_even_pos _ (loc_of_shr_record mrs') H1) as H3.
  destruct (round_nearest_even (shr_m mrs') (loc_of_shr_record mrs')) as [|m2|m2]; try lia.
  destruct (@shr_fexp_pos m2 e' loc_Exact H2) as [H4 H5].
  destruct (shr_fexp prec emax (Z.pos m2) e' loc_Exact) as [mrs'' e'']. simpl in H4, H5.
  destruct (shr_m mrs'') as [|m3|m3]; try lia.
  destruct (e'' <=? emax - prec); reflexivity.
Qed.

Lemma iter_xO m d : Zpos (Pos.iter xO m d) = Zpos m * 2 ^ Zpos d.
Proof.
  induction d as [|d IH] using Pos.peano_ind.
  - simpl. lia.
  - rewrite Pos.iter_succ, Pos2Z.inj_succ, Z.pow_succ_r by lia.
    rewrite Pos2Z.inj_xO, IH. lia.
Qed.

(** [shl_align] brings a mantissa to a smaller exponent. *)
Lemma shl_align_spec m e e' :
  snd (shl_align m e e') = Z.min e e'
  /\ Zpos (fst (shl_align m e e')) = Zpos m * 2 ^ (e - Z.min e e').
Proof.
  unfold shl_align. destruct (e' - e) as [|d|d] eqn:E; simpl.
  - replace (Z.min e e') with e by lia. rewrite Z.sub_diag, Z.pow_0_r. lia.
  - replace (Z.min e e') with e by lia. rewrite Z.sub_diag, Z.pow_0_r. lia.
  - assert (Hd : Zpos d = e - e') by (pose proof (Pos2Z.opp_pos d); lia).
    replace (Z.min e e') with e' by lia. split; [reflexivity|].
    now rewrite iter_xO, Hd.
Qed.

Lemma binary_round_sign s m e :
  -1074 <= e -> has_sign s (binary_round prec emax s m e).
Proof.
  intros He. unfold binary_round.
  destruct (shl_align_spec m e (fexp prec emax (Zpos (digits2_pos m) + e))) as [H1 _].
  destruct (shl_align m e (fexp prec emax (Zpos (digits2_pos m) + e))) as [mz ez].
  simpl in H1. apply binary_round_aux_sign.
  rewrite H1, fexp_eq. unfold fexp64. lia.
Qed.

(** A valid finite value: its exponent is the canonical one. *)
Lemma bounded_spec m e :
  bounded prec emax m e = true ->
  fexp64 (Zpos (digits2_pos m) + e) = e /\ e <= 971.
Proof.
  unfold bounded, canonical_mantissa. rewrite fexp_eq.
  intros H. apply andb_prop in H as [H1 H2].
  apply Z.eqb_eq in H1. apply Z.leb_le in H2. split; [exact H1|exact H2].
Qed.

(** Among canonical mantissas, the one with the larger exponent is the
    larger, once both are brought to the smaller exponent. *)
Lemma aligned_lt mx ex my ey :
  bounded prec emax mx ex = true -> bounded prec emax my ey = true ->
  ex < ey ->
  Zpos mx * 2 ^ (ex - Z.min ex ey) < Zpos my * 2 ^ (ey - Z.min ex ey).
Proof.
  intros Hx Hy Hlt.
  apply bounded_spec in Hx as [Hx _]. apply bounded_spec in Hy as [Hy _].
  unfold fexp64 in Hx, Hy.
  pose proof (digits2_bounds mx) as [_ Hxhi].
  pose proof (digits2_bounds my) as [Hylo _].
  set (dx := Zpos (digits2_pos mx)) in *. set (dy := Zpos (digits2_pos my)) in *.
  replace (Z.min ex ey) with ex by lia. rewrite Z.sub_diag, Z.pow_0_r, Z.mul_1_r.
  assert (Hdy : dy = 53) by lia. assert (Hdx : dx <= 53) by lia.
  rewrite Hdy in Hylo. simpl in Hylo.
  assert (H53 : 2 ^ dx <= 2 ^ 53) by (apply Z.pow_le_mono_r; lia).
  assert (H2 : 2 ^ 1 <= 2 ^ (ey - ex)) by (apply Z.pow_le_mono_r; lia).
  change (2 ^ 53) with 9007199254740992 in H53.
  change (2 ^ 52) with 4503599627370496 in Hylo.
  change (2 ^ 1) with 2 in H2. nia.
Qed.

Lemma SFltb_zero_sign s0 s r : has_sign s r -> SFltb (S754_zero s0) r = negb s.
Proof.
  destruct r as [s'|s'| |s' m e]; simpl; try contradiction; intros ->;
    now destruct s.
Qed.

Lemma binary_normalize_sign d e :
  -1074 <= e ->
  SFltb (S754_zero false) (binary_normalize prec emax d e false) = (0 <? d).
Proof.
  intros He. destruct d as [|p|p]; simpl.
  - reflexivity.
  - now rewrite (@SFltb_zero_sign false _ _ (@binary_round_sign false p e He)).
  - now rewrite (@SFltb_zero_sign false _ _ (@binary_round_sign true p e He)).
Qed.

Lemma compare_cont_Eq m1 m2 : Pos.compare_cont Eq m1 m2 = (Zpos m1 ?= Zpos m2).
Proof. reflexivity. Qed.

Ltac ltb_lia :=
  match goal with
  | |- (0 <? _)%Z = true => apply Z.ltb_lt; lia
  | |- (0 <? _)%Z = false => apply Z.ltb_ge; lia
  end.

(** The sign of a difference of valid values tells their order. *)
Lemma SFsub_sign x y :
  valid_binary x = true -> valid_binary y = true ->
  SFltb (S754_zero false) (SF64sub y x) = SFltb x y.
Proof.
  destruct x as [sx|sx| |sx mx ex], y as [sy|sy| |sy my ey];
    try (intros _ _; try destruct sx; try destruct sy; reflexivity).
  intros Hx Hy. simpl in Hx, Hy.
  destruct (@bounded_spec mx ex Hx) as [Hcx _]. destruct (@bounded_spec my ey Hy) as [Hcy _].
  unfold SF64sub, SFsub.
  rewrite binary_normalize_sign by (unfold fexp64 in Hcx, Hcy; lia).
  destruct (shl_align_spec my ey (Z.min ey ex)) as [_ Hy'].
  destruct (shl_align_spec mx ex (Z.min ey ex)) as [_ Hx'].
  rewrite Hy', Hx'. clear Hy' Hx'.
  replace (Z.min ey (Z.min ey ex)) with (Z.min ex ey) by lia.
  replace (Z.min ex (Z.min ey ex)) with (Z.min ex ey) by lia.
  unfold SFltb, SFcompare. rewrite compare_cont_Eq.
  assert (Hpx : 0 < Zpos mx * 2 ^ (ex - Z.min ex ey))
    by (apply Z.mul_pos_pos; [lia|apply Z.pow_pos_nonneg; lia]).
  assert (Hpy : 0 < Zpos my * 2 ^ (ey - Z.min ex ey))
    by (apply Z.mul_pos_pos; [lia|apply Z.pow_pos_nonneg; lia]).
  destruct (Z.compare_spec ex ey) as [He|He|He].
  - assert (HX : Zpos mx * 2 ^ (ex - Z.min ex ey) = Zpos mx)
      by (replace (ex - Z.min ex ey) with 0 by lia; lia).
    assert (HY : Zpos my * 2 ^ (ey - Z.min ex ey) = Zpos my)
      by (replace (ey - Z.min ex ey) with 0 by lia; lia).
    rewrite HX, HY.
    destruct sx, sy; unfold cond_Zopp;
      destruct (Z.compare_spec (Zpos mx) (Zpos my)); cbn [CompOpp]; ltb_lia.
  - pose proof (@aligned_lt mx ex my ey Hx Hy He) as Hlt.
    destruct sx, sy; unfold cond_Zopp; ltb_lia.
  - pose proof (@aligned_lt my ey mx ex Hy Hx He) as Hlt.
    rewrite (Z.min_comm ey ex) in Hlt.
    destruct sx, sy; unfold cond_Zopp; ltb_lia.
Qed.

(** *** The order of doubles *)

Ltac cmp_cases :=
  repeat match goal with
    | |- context [Z.compare ?a ?b] =>
        destruct (Z.compare_spec a b); try lia; subst; cbn [CompOpp]
    | H : context [Z.compare ?a ?b] |- _ =>
        destruct (Z.compare_spec a b); try lia; subst; cbn [CompOpp] in *
    end.

Ltac order_cases x :=
  destruct x as [[|]|[|]| |[|] ? ?].

Lemma SFleb_trans x y z :
  SFleb x y = true -> SFleb y z = true -> SFleb x z = true.
Proof.
  unfold SFleb, SFcompare.
  order_cases x; order_cases y; order_cases z;
    try reflexivity; try discriminate;
    rewrite ?compare_cont_Eq; intros H1 H2;
    cmp_cases; try reflexivity; try discriminate.
Qed.

Lemma SFltb_false x y :
  x <> S754_nan -> y <> S754_nan -> SFltb x y = false -> SFleb y x = true.
Proof.
  unfold SFleb, SFltb, SFcompare.
  order_cases x; order_cases y;
    try reflexivity; try discriminate; try congruence;
    rewrite ?compare_cont_Eq; intros _ _ H1;
    cmp_cases; try reflexivity; try discriminate.
Qed.

Lemma SFleb_cases x y :
  SFleb x y = true -> SFltb x y = true \/ SFeqb y x = true.
Proof.
  unfold SFleb, SFltb, SFeqb, SFcompare.
  order_cases x; order_cases y;
    try (left; reflexivity); try (right; reflexivity); try discriminate;
    rewrite ?compare_cont_Eq; intros H1;
    cmp_cases; try (left; reflexivity); try (right; reflexivity); try discriminate.
Qed.

Lemma SFltb_leb x y : SFltb x y = true -> SFleb x y = true.
Proof.
  unfold SFleb, SFltb. destruct (SFcompare x y) as [[]|]; trivial.
Qed.

Lemma SFeqb_leb x y : SFeqb x y = true -> SFleb y x = true.
Proof.
  unfold SFleb, SFeqb, SFcompare.
  order_cases x; order_cases y;
    try reflexivity; try discriminate;
    rewrite ?compare_cont_Eq; intros H1;
    cmp_cases; try reflexivity; try discriminate.
Qed.

Lemma SFeqb_refl x : x <> S754_nan -> SFeqb x x = true.
Proof.
  unfold SFeqb, SFcompare. order_cases x; try reflexivity; try congruence;
    intros _; rewrite compare_cont_Eq, !Z.compare_refl; reflexivity.
Qed.

(** The number of binary digits is determined by the bounds. *)
Lemma Zdigits2_unique m k :
  2 ^ (k - 1) <= m < 2 ^ k -> 0 < k -> Zdigits2 m = k.
Proof.
  intros [Hlo Hhi] Hk.
  assert (Hm : 0 < m) by (pose proof (Z.pow_pos_nonneg 2 (k - 1)); lia).
  destruct m as [|p|p]; try lia. simpl.
  pose proof (digits2_bounds p) as [Hlo' Hhi'].
  set (d := Zpos (digits2_pos p)) in *.
  destruct (Z.lt_trichotomy d k) as [H|[H|H]]; trivial.
  - assert (2 ^ d <= 2 ^ (k - 1)) by (apply Z.pow_le_mono_r; lia). lia.
  - assert (2 ^ k <= 2 ^ (d - 1)) by (apply Z.pow_le_mono_r; lia). lia.
Qed.

Lemma Zdigits2_bounds m :
  0 < m -> 2 ^ (Zdigits2 m - 1) <= m < 2 ^ Zdigits2 m.
Proof. destruct m as [|p|p]; try lia. intros _. apply digits2_bounds. Qed.

Lemma round_nearest_even_cases m l :
  round_nearest_even m l = m \/ round_nearest_even m l = m + 1.
Proof. destruct l as [|[]]; simpl; auto. destruct (Z.even m); auto. Qed.

(** Rounding a mantissa of at least 53 digits in the normal range: the
    result has a 53-digit mantissa [P] and its value is [P0 * 2 ^ (ex + n)],
    where [P0] is the mantissa cut to 53 digits or the next integer. *)
Lemma binary_round_aux_normal s mx ex l :
  0 < mx ->
  53 <= Zdigits2 mx ->
  -1074 <= ex + Zdigits2 mx - 53 ->
  let n := Zdigits2 mx - 53 in
  exists P eP k,
    binary_round_aux prec emax s mx ex l
    = (if eP <=? 971 then S754_finite s P eP else S754_infinity s)
    /\ 2 ^ 52 <= Zpos P < 2 ^ 53
    /\ (k = 0 \/ k = 1)
    /\ eP = ex + n + k
    /\ (Zpos P * 2 ^ k = mx / 2 ^ n \/ Zpos P * 2 ^ k = mx / 2 ^ n + 1)
    /\ (n = 0 -> Zpos P * 2 ^ k = round_nearest_even mx l).
Proof.
  intros Hm Hd He n.
  pose proof (Zdigits2_bounds Hm) as [Hlo Hhi].
  set (d := Zdigits2 mx) in *.
  assert (Hn : 0 <= n) by (unfold n; lia).
  assert (Hm1 : 2 ^ 52 <= mx / 2 ^ n < 2 ^ 53).
  { assert (H2n : 0 < 2 ^ n) by (apply Z.pow_pos_nonneg; lia).
    assert (E1 : 2 ^ (d - 1) = 2 ^ 52 * 2 ^ n)
      by (rewrite <- Z.pow_add_r by lia; f_equal; unfold n; lia).
    assert (E2 : 2 ^ d = 2 ^ 53 * 2 ^ n)
      by (rewrite <- Z.pow_add_r by lia; f_equal; unfold n; lia).
    split.
    - apply Z.div_le_lower_bound; lia.
    - apply Z.div_lt_upper_bound; lia. }
  unfold binary_round_aux.
  destruct (@shr_fexp_spec mx ex l) as [H1 H2]; [lia|].
  fold d in H1, H2. unfold fexp64 in H1, H2.
  replace (Z.max (d + ex - 53) (-1074) - ex) with n in H1, H2 by (unfold n; lia).
  destruct (shr_fexp prec emax mx ex l) as [mrs' e'] eqn:Emrs. simpl in H1, H2.
  assert (H1' : shr_m mrs' = mx / 2 ^ n).
  { rewrite H1. destruct (Z.ltb_spec 0 n); trivial.
    replace n with 0 by lia. now rewrite Z.pow_0_r, Z.div_1_r. }
  assert (H2' : e' = ex + n).
  { rewrite H2. destruct (Z.ltb_spec 0 n); lia. }
  clear H1 H2. rewrite H1'. set (m1 := mx / 2 ^ n) in *.
  assert (Hloc : n = 0 -> round_nearest_even m1 (loc_of_shr_record mrs')
                          = round_nearest_even mx l).
  { intros Hn0. unfold m1. rewrite Hn0, Z.pow_0_r, Z.div_1_r. f_equal.
    assert (E0 : shr_fexp prec emax mx ex l = (shr_record_of_loc mx l, ex)).
    { unfold shr_fexp, shr. rewrite fexp_eq. fold d. unfold fexp64.
      replace (Z.max (d + ex - 53) (-1074) - ex) with 0 by (unfold n in Hn0; lia).
      reflexivity. }
    rewrite E0 in Emrs. injection Emrs as <- _. now destruct l as [|[]]. }
  set (P0 := round_nearest_even m1 (loc_of_shr_record mrs')) in *.
  assert (HP0 : P0 = m1 \/ P0 = m1 + 1) by apply round_nearest_even_cases.
  destruct (@shr_fexp_spec P0 e' loc_Exact) as [H3 H4]; [lia|].
  unfold fexp64 in H3, H4.
  change (2 ^ 52) with 4503599627370496 in *.
  change (2 ^ 53) with 9007199254740992 in *.
  destruct (Z.eq_dec P0 9007199254740992) as [E|E].
  - (* the rounded mantissa is 2^53: one more shift *)
    assert (Hd0 : Zdigits2 P0 = 54) by (rewrite E; reflexivity).
    rewrite Hd0 in H3, H4.
    replace (Z.max (54 + e' - 53) (-1074) - e') with 1 in H3, H4 by lia.
    simpl in H3, H4.
    destruct (shr_fexp prec emax P0 e' loc_Exact) as [mrs'' e'']. simpl in H3, H4.
    rewrite H3, E. change (9007199254740992 / 2 ^ 1) with 4503599627370496.
    exists 4503599627370496%positive, e'', 1.
    change (emax - prec) with 971.
    split; [reflexivity|]. split; [lia|]. split; [now right|]. split; [lia|].
    change (2 ^ 1) with 2. split; [lia|]. intros Hn0. rewrite <- (Hloc Hn0). lia.
  - assert (Hd0 : Zdigits2 P0 = 53)
      by (apply Zdigits2_unique; [change (2 ^ (53 - 1)) with 4503599627370496;
            change (2 ^ 53) with 9007199254740992|]; lia).
    rewrite Hd0 in H3, H4.
    replace (Z.max (53 + e' - 53) (-1074) - e') with 0 in H3, H4 by lia.
    simpl in H3, H4.
    destruct (shr_fexp prec emax P0 e' loc_Exact) as [mrs'' e'']. simpl in H3, H4.
    rewrite H3. destruct P0 as [|P|P] eqn:EP; try lia.
    exists P, e'', 0. change (emax - prec) with 971.
    split; [reflexivity|]. split; [lia|]. split; [now left|]. split; [lia|].
    rewrite Z.pow_0_r. split; [lia|]. intros Hn0. rewrite <- (Hloc Hn0). lia.
Qed.

Lemma sqrtrem_bounds n :
  0 <= n ->
  fst (Z.sqrtrem n) * fst (Z.sqrtrem n) <= n
  < (fst (Z.sqrtrem n) + 1) * (fst (Z.sqrtrem n) + 1)
  /\ 0 <= fst (Z.sqrtrem n).
Proof.
  intros Hn. pose proof (Z.sqrtrem_spec n Hn) as H.
  destruct (Z.sqrtrem n) as [s r]. simpl. nia.
Qed.

(** The square root of a normal value: a 53-digit mantissa [Q] at the
    exponent [e'], within one unit of the exact root of [m'], where
    [m' * 2 ^ (2 * e')] is the value. *)
Lemma SFsqrt_normal M E :
  Zdigits2 (Zpos M) = 53 -> -1074 <= E <= 971 ->
  let e' := Z.div2 E - 26 in
  let m' := Zpos M * 2 ^ (E - 2 * e') in
  exists Q,
    SF64sqrt (S754_finite false M E) = S754_finite false Q e'
    /\ 2 ^ 52 <= Zpos Q < 2 ^ 53
    /\ (Zpos Q - 1) * (Zpos Q - 1) <= m' < (Zpos Q + 1) * (Zpos Q + 1).
Proof.
  intros Hd HE e' m'.
  assert (Hpar : E - 2 * e' = 52 \/ E - 2 * e' = 53).
  { unfold e'. rewrite Z.div2_div. Z.div_mod_to_equations. lia. }
  pose proof (@Zdigits2_bounds (Zpos M) eq_refl) as HM. rewrite Hd in HM.
  change (2 ^ (53 - 1)) with 4503599627370496 in HM.
  change (2 ^ 53) with 9007199254740992 in HM.
  assert (Hm' : 20282409603651670423947251286016 <= m'
                <= 81129638414606681695789005144064 - 9007199254740992).
  { unfold m'. destruct Hpar as [-> | ->];
      [change (2 ^ 52) with 4503599627370496|change (2 ^ 53) with 9007199254740992];
      lia. }
  unfold SF64sqrt, SFsqrt, SFsqrt_core_binary. rewrite Hd.
  assert (He' : Z.min (fexp prec emax (Z.div2 (53 + E + 1))) (Z.div2 E) = e').
  { rewrite fexp_eq. unfold fexp64, e'. rewrite !Z.div2_div.
    Z.div_mod_to_equations. lia. }
  rewrite He'.
  assert (Hsh : match E - 2 * e' with
                | Z.pos _ => Z.shiftl (Zpos M) (E - 2 * e')
                | 0 => Zpos M
                | Z.neg _ => 0
                end = m').
  { unfold m'. destruct Hpar as [-> | ->]; rewrite Z.shiftl_mul_pow2 by lia; reflexivity. }
  rewrite Hsh.
  pose proof (Z.sqrtrem_spec m' ltac:(lia)) as Hqr.
  destruct (Z.sqrtrem m') as [q r]. destruct Hqr as [Hqr Hr].
  assert (Hq : 4503599627370496 <= q < 9007199254740992) by nia.
  assert (Hdq : Zdigits2 q = 53)
    by (apply Zdigits2_unique; [change (2 ^ (53 - 1)) with 4503599627370496;
          change (2 ^ 53) with 9007199254740992|]; lia).
  set (l := if r =? 0 then loc_Exact else loc_Inexact (if r <=? q then Lt else Gt)).
  assert (Hex : -1074 <= e' + Zdigits2 q - 53).
  { rewrite Hdq. unfold e'. rewrite Z.div2_div. Z.div_mod_to_equations. lia. }
  destruct (@binary_round_aux_normal false q e' l)
    as [P [eP [k [Hrd [HP [Hk [HeP [_ HP0]]]]]]]]; try lia.
  rewrite Hdq in HeP, HP0. rewrite Z.sub_diag in HeP, HP0.
  specialize (HP0 eq_refl).
  change (2 ^ 52) with 4503599627370496 in *.
  change (2 ^ 53) with 9007199254740992 in *.
  assert (Hround : (round_nearest_even q l = q /\ q * q <= m')
                   \/ (round_nearest_even q l = q + 1 /\ q < r)).
  { unfold l. destruct (Z.eqb_spec r 0); [left; simpl; split; [reflexivity|nia]|].
    destruct (Z.leb_spec r q); [left; simpl; split; [reflexivity|nia]|].
    right. simpl. split; [reflexivity|lia]. }
  assert (Hk0 : k = 0).
  { destruct Hk as [Hk|Hk]; trivial. subst k. change (2 ^ 1) with 2 in HP0.
    destruct Hround as [[Hrn _]|[Hrn Hgt]]; rewrite Hrn in HP0; nia. }
  subst k. rewrite Z.pow_0_r, Z.mul_1_r in HP0.
  replace (e' + 0 + 0) with e' in HeP by lia.
  rewrite Hrd.
  assert (HeP' : (eP <=? 971) = true).
  { apply Z.leb_le. rewrite HeP. unfold e'. rewrite Z.div2_div.
    Z.div_mod_to_equations. lia. }
  rewrite HeP', HeP. exists P.
  split; [reflexivity|]. split; [exact HP|].
  destruct Hround as [[Hrn _]|[Hrn Hgt]]; rewrite Hrn in HP0; rewrite HP0; nia.
Qed.

Ltac pow_consts :=
  change (2 ^ 52) with 4503599627370496 in *;
  change (2 ^ 53) with 9007199254740992 in *;
  change (2 ^ 54) with 18014398509481984 in *;
  change (2 ^ 104) with 20282409603651670423947251286016 in *;
  change (2 ^ 105) with 40564819207303340847894502572032 in *;
  change (2 ^ 106) with 81129638414606681695789005144064 in *.

(** The digits of a number between two powers of two. *)
Lemma Zdigits2_between m a b :
  0 <= a -> a <= b -> 2 ^ a <= m < 2 ^ b -> a + 1 <= Zdigits2 m <= b.
Proof.
  intros Ha Hab [Hlo Hhi].
  assert (Hm : 0 < m) by (pose proof (Z.pow_pos_nonneg 2 a); lia).
  pose proof (Zdigits2_bounds Hm) as [Hlo' Hhi'].
  set (d := Zdigits2 m) in *.
  assert (Hd : 0 < d) by (destruct m; try lia; reflexivity).
  split.
  - destruct (Z.le_gt_cases (a + 1) d) as [H|H]; trivial.
    assert (2 ^ d <= 2 ^ a) by (apply Z.pow_le_mono_r; lia). lia.
  - destruct (Z.le_gt_cases d b) as [H|H]; trivial.
    assert (2 ^ b <= 2 ^ (d - 1)) by (apply Z.pow_le_mono_r; lia). lia.
Qed.

(** The square of a normal value [Q * 2 ^ eQ]: a 53-digit mantissa [P] at
    the exponent [2 * eQ + j], within [2 ^ 53] of [Q * Q] once brought to
    the exponent [2 * eQ]. *)
Lemma SFmul_square Q eQ :
  2 ^ 52 <= Zpos Q < 2 ^ 53 -> -563 <= eQ <= 459 ->
  exists P j,
    SF64mul (S754_finite false Q eQ) (S754_finite false Q eQ)
    = S754_finite false P (2 * eQ + j)
    /\ 2 ^ 52 <= Zpos P < 2 ^ 53
    /\ 52 <= j <= 53
    /\ Zpos Q * Zpos Q - 2 ^ 53 <= Zpos P * 2 ^ j <= Zpos Q * Zpos Q + 2 ^ 53.
Proof.
  intros HQ HeQ. unfold SF64mul, SFmul. simpl xorb.
  rewrite Pos2Z.inj_mul. set (mx := Zpos Q * Zpos Q).
  assert (Hmx : 2 ^ 104 <= mx < 2 ^ 106) by (unfold mx; pow_consts; nia).
  destruct (@Zdigits2_between mx 104 106) as [Hd1 Hd2]; try lia.
  assert (H0 : 0 < mx) by (pow_consts; lia).
  destruct (@binary_round_aux_normal false mx (eQ + eQ) loc_Exact)
    as [P [eP [k [Hr [HP [Hk [HeP [HP0 Hex0]]]]]]]]; try lia.
  rewrite Hr.
  assert (Hn : Zdigits2 mx - 53 = 52 \/ Zdigits2 mx - 53 = 53) by lia.
  assert (Hj : Zdigits2 mx - 53 + k <= 53).
  { destruct Hk as [-> | ->]; [lia|]. destruct Hn as [Hn|Hn]; [lia|].
    exfalso. rewrite Hn in HP0. change (2 ^ 1) with 2 in HP0. pow_consts.
    assert (Hmx' : mx <= 81129638414606681695789005144064 - 18014398509481984 + 1)
      by (unfold mx; nia).
    destruct HP0 as [HP0|HP0]; Z.div_mod_to_equations; lia. }
  assert (HeP' : (eP <=? 971) = true) by (apply Z.leb_le; lia).
  rewrite HeP'. exists P, (Zdigits2 mx - 53 + k).
  replace (2 * eQ + (Zdigits2 mx - 53 + k)) with eP by lia.
  split; [reflexivity|]. split; [exact HP|]. split; [lia|].
  rewrite Z.pow_add_r by lia.
  destruct Hk as [-> | ->]; rewrite ?Z.pow_0_r in *; change (2 ^ 1) with 2 in *;
    destruct Hn as [Hn|Hn]; rewrite Hn in *; pow_consts;
    destruct HP0 as [HP0|HP0]; Z.div_mod_to_equations; lia.
Qed.

Lemma div_eucl_bounds a b :
  0 < b ->
  b * fst (Z.div_eucl a b) <= a < b * (fst (Z.div_eucl a b) + 1).
Proof.
  intros Hb. pose proof (Z_div_mod a b ltac:(lia)) as H.
  destruct (Z.div_eucl a b) as [q r]. simpl. lia.
Qed.

(** The quotient of two normal values of nearby exponents: a 53-digit
    mantissa [R] with [R * 2 ^ t] within two units of the integer quotient
    of [M * 2 ^ 53] by [P]. *)
Lemma SFdiv_normal M E P eP :
  2 ^ 52 <= Zpos M < 2 ^ 53 -> 2 ^ 52 <= Zpos P < 2 ^ 53 ->
  -4 <= E - eP <= 4 ->
  exists R t qd,
    SF64div (S754_finite false M E) (S754_finite false P eP)
    = S754_finite false R (E - eP - 53 + t)
    /\ 2 ^ 52 <= Zpos R < 2 ^ 53
    /\ 0 <= t <= 2
    /\ Zpos P * qd <= Zpos M * 2 ^ 53 < Zpos P * (qd + 1)
    /\ qd - 1 <= Zpos R * 2 ^ t <= qd + 2.
Proof.
  intros HM HP HE. unfold SF64div, SFdiv, SFdiv_core_binary. simpl xorb.
  assert (HdM : Zdigits2 (Zpos M) = 53)
    by (apply Zdigits2_unique; [exact HM|lia]).
  assert (HdP : Zdigits2 (Zpos P) = 53)
    by (apply Zdigits2_unique; [exact HP|lia]).
  rewrite HdM, HdP.
  assert (He' : Z.min (fexp prec emax (53 + E - (53 + eP))) (E - eP) = E - eP - 53)
    by (rewrite fexp_eq; unfold fexp64; lia).
  rewrite He'.
  replace (E - eP - (E - eP - 53)) with 53 by lia.
  rewrite Z.shiftl_mul_pow2 by lia.
  pose proof (@div_eucl_bounds (Zpos M * 2 ^ 53) (Zpos P) eq_refl) as Hq.
  destruct (Z.div_eucl (Zpos M * 2 ^ 53) (Zpos P)) as [qd r]. cbn [fst] in Hq.
  assert (Hqd : 2 ^ 52 <= qd < 2 ^ 54) by (pow_consts; nia).
  destruct (@Zdigits2_between qd 52 54) as [Hd1 Hd2]; try lia.
  assert (H0 : 0 < qd) by (pow_consts; lia).
  destruct (@binary_round_aux_normal false qd (E - eP - 53) (new_location (Zpos P) r))
    as [R [eR [k [Hr [HR [Hk [HeR [HR0 _]]]]]]]]; try lia.
  rewrite Hr.
  assert (HeR' : (eR <=? 971) = true) by (apply Z.leb_le; lia).
  rewrite HeR'. exists R, (Zdigits2 qd - 53 + k), qd.
  replace (E - eP - 53 + (Zdigits2 qd - 53 + k)) with eR by lia.
  split; [reflexivity|]. split; [exact HR|]. split; [lia|]. split; [exact Hq|].
  rewrite Z.pow_add_r, (Z.mul_comm (2 ^ _)), Z.mul_assoc by lia.
  assert (Hn : Zdigits2 qd - 53 = 0 \/ Zdigits2 qd - 53 = 1) by lia.
  destruct Hk as [-> | ->]; rewrite ?Z.pow_0_r in *; change (2 ^ 1) with 2 in *;
    destruct Hn as [Hn|Hn]; rewrite Hn in *;
    rewrite ?Z.pow_0_r in *; change (2 ^ 1) with 2 in *;
    destruct HR0 as [HR0|HR0]; Z.div_mod_to_equations; lia.
Qed.

(** For a normal value [m], the quotient [m / (sqrt m * sqrt m)] is near
    one. *)
Lemma self_quotient M E :
  Zdigits2 (Zpos M) = 53 -> -1074 <= E <= 971 ->
  near_one (SF64div (S754_finite false M E)
              (SF64mul (SF64sqrt (S754_finite false M E))
                       (SF64sqrt (S754_finite false M E)))).
Proof.
  intros Hd HE.
  destruct (SFsqrt_normal Hd HE) as [Q [Hs [HQ HQm]]]. rewrite Hs.
  set (e' := Z.div2 E - 26) in *.
  assert (Hpar : E - 2 * e' = 52 \/ E - 2 * e' = 53).
  { unfold e'. rewrite Z.div2_div. Z.div_mod_to_equations. lia. }
  assert (He' : -563 <= e' <= 459).
  { unfold e'. rewrite Z.div2_div. Z.div_mod_to_equations. lia. }
  destruct (SFmul_square HQ He') as [P [j [Hp [HP [Hj HPQ]]]]]. rewrite Hp.
  pose proof (@Zdigits2_bounds (Zpos M) eq_refl) as HM. rewrite Hd in HM.
  change (2 ^ (53 - 1)) with (2 ^ 52) in HM.
  destruct (@SFdiv_normal M E P (2 * e' + j) HM HP) as [R [t [qd [Hr [HR [Ht [Hqd HRq]]]]]]];
    [lia|].
  rewrite Hr. exists R, (E - (2 * e' + j) - 53 + t). split; [reflexivity|].
  assert (Hj' : j = 52 \/ j = 53) by lia.
  assert (Ht' : t = 0 \/ t = 1 \/ t = 2) by lia.
  set (sh := E - 2 * e') in *.
  replace (E - (2 * e' + j) - 53 + t) with (sh - j - 53 + t) by (unfold sh; lia).
  clearbody sh. clear Hs Hp Hr Hd HE He' e'.
  pow_consts. change (2 ^ 13) with 8192. change (2 ^ 12) with 4096.
  destruct Hpar as [-> | ->]; destruct Hj' as [-> | ->];
    destruct Ht' as [-> | [-> | ->]]; pow_consts;
    rewrite ?Z.pow_0_r in *; change (2 ^ 1) with 2 in *; change (2 ^ 2) with 4 in *;
    simpl Z.add; simpl Z.sub; nia.
Qed.

(** Rounding a small integer at an exponent near [-52] is exact enough:
    the result is far below the tolerance. *)
Lemma binary_round_small s d e :
  Zpos d < 2 ^ 14 -> -53 <= e <= -52 ->
  exists P eP,
    binary_round prec emax s d e = S754_finite s P eP /\ eP <= -90.
Proof.
  intros Hd He. unfold binary_round.
  assert (Hd0 : 2 ^ 0 <= Zpos d < 2 ^ 14) by (rewrite Z.pow_0_r; lia).
  destruct (@Zdigits2_between (Zpos d) 0 14) as [Hd1 Hd2]; try lia.
  pose proof (@Zdigits2_bounds (Zpos d) eq_refl) as [Hlo Hhi].
  change (Zdigits2 (Zpos d)) with (Zpos (digits2_pos d)) in *.
  set (dd := Zpos (digits2_pos d)) in *.
  assert (Hf : fexp prec emax (dd + e) = dd + e - 53)
    by (rewrite fexp_eq; unfold fexp64; lia).
  rewrite Hf.
  destruct (shl_align_spec d e (dd + e - 53)) as [Hez Hmz].
  destruct (shl_align d e (dd + e - 53)) as [mz ez]. cbn [fst snd] in Hez, Hmz.
  replace (Z.min e (dd + e - 53)) with (dd + e - 53) in Hez, Hmz by lia.
  replace (e - (dd + e - 53)) with (53 - dd) in Hmz by lia.
  assert (Hmz' : 2 ^ 52 <= Zpos mz < 2 ^ 53).
  { rewrite Hmz.
    replace (2 ^ 52) with (2 ^ (dd - 1) * 2 ^ (53 - dd))
      by (rewrite <- Z.pow_add_r by lia; f_equal; lia).
    replace (2 ^ 53) with (2 ^ dd * 2 ^ (53 - dd))
      by (rewrite <- Z.pow_add_r by lia; f_equal; lia).
    assert (0 < 2 ^ (53 - dd)) by (apply Z.pow_pos_nonneg; lia). nia. }
  assert (Hdz : Zdigits2 (Zpos mz) = 53)
    by (apply Zdigits2_unique; [exact Hmz'|lia]).
  destruct (@binary_round_aux_normal s (Zpos mz) ez loc_Exact)
    as [P [eP [k [Hr [HP [Hk [HeP _]]]]]]]; try lia.
  rewrite Hr. rewrite Hdz in HeP.
  assert (HeP' : (eP <=? 971) = true) by (apply Z.leb_le; lia).
  rewrite HeP'. exists P, eP. split; [reflexivity|lia].
Qed.

(** A value near one is within the tolerance of one:
    [|x - 1| <= 1e-9] in binary64 arithmetic. *)
Lemma near_one_close x :
  near_one x ->
  SFleb (SFabs (SF64sub x (S754_finite false 4503599627370496 (-52))))
        (S754_finite false 4835703278458517 (-82)) = true.
Proof.
  intros [R [eR [-> H]]]. unfold SF64sub, SFsub.
  destruct (shl_align_spec R eR (Z.min eR (-52))) as [_ HR].
  destruct (shl_align_spec 4503599627370496 (-52) (Z.min eR (-52))) as [_ H1].
  rewrite HR, H1. clear HR H1.
  change (2 ^ 53) with 9007199254740992 in H.
  change (2 ^ 52) with 4503599627370496 in H.
  change (2 ^ 13) with 8192 in H. change (2 ^ 12) with 4096 in H.
  assert (Hsmall : forall s d e, Zpos d < 2 ^ 14 -> -53 <= e <= -52 ->
            SFleb (SFabs (binary_round prec emax s d e))
                  (S754_finite false 4835703278458517 (-82)) = true).
  { intros s d e Hd He.
    destruct (@binary_round_small s d e Hd He) as [P [eP [-> HeP]]].
    unfold SFleb, SFabs, SFcompare.
    destruct (Z.compare_spec eP (-82)); first [reflexivity|lia]. }
  destruct H as [[-> HR]|[-> HR]]; cbv [cond_Zopp];
    match goal with
    | |- context [binary_normalize _ _ (_ * ?p - ?b * ?q) ?e _] =>
        let p' := eval vm_compute in p in
        let q' := eval vm_compute in (b * q) in
        let e' := eval vm_compute in e in
        change p with p'; try change (b * q) with q'; change e with e'
    end; rewrite ?Z.mul_1_r.
  - destruct (Zpos R - 9007199254740992) as [|d|d] eqn:ED; try lia.
    cbn [binary_normalize]. apply Hsmall; [|lia].
    change (2 ^ 14) with 16384. lia.
  - destruct (Zpos R - 4503599627370496) as [|d|d] eqn:ED; try lia.
    + reflexivity.
    + cbn [binary_normalize]. apply Hsmall; [|lia].
      change (2 ^ 14) with 16384. lia.
Qed.

(** A positive normal value has a 53-digit mantissa. *)
Lemma normal_spec x :
  valid_binary x = true -> SF64classify x = PNormal ->
  exists M E, x = S754_finite false M E
              /\ Zdigits2 (Zpos M) = 53 /\ -1074 <= E <= 971.
Proof.
  unfold SF64classify, SFclassify.
  destruct x as [[|]|[|]| |[|] M E]; try discriminate.
  - destruct (Z.pos (digits2_pos M) =? prec); discriminate.
  - intros Hv Hc. exists M, E. split; [reflexivity|].
    destruct (Z.eqb_spec (Z.pos (digits2_pos M)) prec) as [Hd|Hd]; [|discriminate].
    change prec with 53 in Hd. split; [exact Hd|].
    destruct (@bounded_spec M E Hv) as [Hc1 Hc2]. unfold fexp64 in Hc1. lia.
Qed.

End Binary64Facts.


(** ** Facts about binary64 arithmetic

    Every fact is obtained from the IEEE 754 specification of the
    primitive operations ([Prim2SF] and the [*_spec] equations). *)

Module Float64Facts.

Import Float64.


Lemma Prim2SF_nan : Prim2SF nan = S754_nan.
Proof. reflexivity. Qed.

Lemma Prim2SF_zero : Prim2SF 0 = S754_zero false.
Proof. reflexivity. Qed.

Lemma nan_spec x : Prim2SF x = S754_nan -> x = nan.
Proof. intros H. apply Prim2SF_inj. rewrite H. reflexivity. Qed.

(** Conversion of a goal between floats to the specification level. *)
Ltac to_spec :=
  apply Prim2SF_inj;
  repeat (rewrite ?add_spec, ?mul_spec, ?div_spec, ?sub_spec, ?sqrt_spec,
                  ?Prim2SF_nan, ?Prim2SF_zero).

Lemma mul_comm x y : x * y = y * x.
Proof.
  to_spec. unfold SF64mul.
  destruct (Prim2SF x) as [sx|sx| |sx mx ex], (Prim2SF y) as [sy|sy| |sy my ey];
    simpl; rewrite ?(xorb_comm sx sy); try reflexivity.
  now rewrite (Pos.mul_comm mx my), (Z.add_comm ex ey).
Qed.

Lemma add_nan_l x : nan + x = nan.
Proof. to_spec. reflexivity. Qed.

Lemma add_nan_r x : x + nan = nan.
Proof. to_spec. now destruct (Prim2SF x). Qed.

Lemma mul_nan_l x : nan * x = nan.
Proof. to_spec. reflexivity. Qed.

Lemma mul_nan_r x : x * nan = nan.
Proof. to_spec. now destruct (Prim2SF x). Qed.

Lemma div_nan_l x : nan / x = nan.
Proof. to_spec. reflexivity. Qed.

Lemma div_nan_r x : x / nan = nan.
Proof. to_spec. now destruct (Prim2SF x). Qed.

Lemma sqrt_nan : sqrt nan = nan.
Proof. reflexivity. Qed.

(** *** Zeros *)

Lemma is_zero_spec x : is_zero x = true <-> zero_spec (Prim2SF x).
Proof.
  unfold is_zero, zero_spec. rewrite eqb_spec.
  change (Prim2SF zero) with (S754_zero false).
  destruct (Prim2SF x) as [s|s| |s m e]; unfold SFeqb; simpl; split;
    try discriminate; try (intros [s' Hs']; discriminate); eauto;
    destruct s; discriminate.
Qed.

Lemma zero_or_nan_to_spec x : zero_or_nan x <-> zero_or_nan_spec (Prim2SF x).
Proof.
  unfold zero_or_nan, zero_or_nan_spec. rewrite is_zero_spec. split.
  - intros [->|H]; auto.
  - intros [H|H]; auto. left. now apply nan_spec.
Qed.

Lemma mul_zero_l x y : is_zero x = true -> zero_or_nan (x * y).
Proof.
  rewrite is_zero_spec, zero_or_nan_to_spec, mul_spec. intros [s ->].
  unfold zero_or_nan_spec, zero_spec.
  destruct (Prim2SF y); simpl; eauto.
Qed.

Lemma mul_zero_r x y : is_zero y = true -> zero_or_nan (x * y).
Proof. rewrite mul_comm. apply mul_zero_l. Qed.

Lemma mul_zero_zero x y : is_zero x = true -> is_zero y = true -> is_zero (x * y) = true.
Proof.
  rewrite !is_zero_spec, mul_spec. intros [s ->] [s' ->].
  unfold zero_spec. simpl. eauto.
Qed.

Lemma add_zero_zero x y : is_zero x = true -> is_zero y = true -> is_zero (x + y) = true.
Proof.
  rewrite !is_zero_spec, add_spec. intros [s ->] [s' ->].
  unfold zero_spec. destruct s, s'; simpl; eauto.
Qed.

Lemma add_zero_or_nan x y : zero_or_nan x -> zero_or_nan y -> zero_or_nan (x + y).
Proof.
  rewrite !zero_or_nan_to_spec, add_spec. unfold zero_or_nan_spec, zero_spec.
  intros [->|[s ->]] [->|[s' ->]]; simpl; eauto.
  destruct s, s'; simpl; eauto.
Qed.

Lemma sqrt_zero x : is_zero x = true -> is_zero (sqrt x) = true.
Proof.
  rewrite !is_zero_spec, sqrt_spec. intros [s ->]. unfold zero_spec. simpl. eauto.
Qed.

(** Dividing a zero or NaN by a zero or NaN is the unguarded [0/0]. *)
Lemma div_zero_or_nan x y : zero_or_nan x -> zero_or_nan y -> x / y = nan.
Proof.
  rewrite !zero_or_nan_to_spec. unfold zero_or_nan_spec, zero_spec.
  intros Hx Hy. to_spec.
  destruct Hx as [->|[s ->]], Hy as [->|[s' ->]]; reflexivity.
Qed.

(** *** Finite values *)

Lemma Prim2SF_infinity : Prim2SF infinity = S754_infinity false.
Proof. reflexivity. Qed.

Lemma is_finite_spec x : is_finite x = true -> finite_spec (Prim2SF x).
Proof.
  unfold is_finite, is_nan, is_infinity.
  rewrite !eqb_spec, abs_spec, Prim2SF_infinity.
  destruct (Prim2SF x) as [s|[|]| |s m e]; simpl; trivial;
    intros H; vm_compute in H; discriminate H.
Qed.

Lemma SFsub_diag x : finite_spec x -> SF64sub x x = S754_zero false.
Proof.
  destruct x as [s|s| |s m e]; simpl; try contradiction; intros _.
  - now destruct s.
  - unfold SF64sub, SFsub. rewrite Z.min_id. unfold shl_align.
    rewrite !Z.sub_diag. reflexivity.
Qed.

Lemma sub_diag x : is_finite x = true -> x - x = 0.
Proof.
  intros H. to_spec. now apply SFsub_diag, is_finite_spec.
Qed.

(** *** Subtraction and order *)

(** The sign of [b - a] is that of the comparison [a < b], whatever the
    doubles [a] and [b]. *)
Lemma sub_positive a b : (0 <? b - a) = (a <? b).
Proof.
  rewrite !ltb_spec, sub_spec. change (Prim2SF 0) with (S754_zero false).
  apply Binary64Facts.SFsub_sign; apply Prim2SF_valid.
Qed.

Lemma is_nan_spec x : is_nan x = false -> Prim2SF x <> S754_nan.
Proof.
  unfold is_nan. rewrite eqb_spec. intros H E. rewrite E in H. discriminate H.
Qed.

Lemma is_nan_true x : is_nan x = true -> x = nan.
Proof.
  unfold is_nan. rewrite eqb_spec. intros H. apply nan_spec.
  destruct (Prim2SF x) eqn:E; trivial;
    rewrite Binary64Facts.SFeqb_refl in H by discriminate; discriminate H.
Qed.

Lemma ltb_nan_r a v : is_nan v = true -> (a <? v) = false.
Proof.
  intros H. rewrite (is_nan_true _ H), ltb_spec, Prim2SF_nan.
  now destruct (Prim2SF a).
Qed.

Lemma leb_trans x y z : (x <=? y) = true -> (y <=? z) = true -> (x <=? z) = true.
Proof. rewrite !leb_spec. apply Binary64Facts.SFleb_trans. Qed.

Lemma ltb_false x y :
  is_nan x = false -> is_nan y = false -> (x <? y) = false -> (y <=? x) = true.
Proof.
  rewrite ltb_spec, leb_spec. intros Hx Hy.
  apply Binary64Facts.SFltb_false; now apply is_nan_spec.
Qed.

Lemma leb_cases x y : (x <=? y) = true -> (x <? y) = true \/ (y =? x) = true.
Proof. rewrite leb_spec, ltb_spec, eqb_spec. apply Binary64Facts.SFleb_cases. Qed.

Lemma ltb_leb x y : (x <? y) = true -> (x <=? y) = true.
Proof. rewrite leb_spec, ltb_spec. apply Binary64Facts.SFltb_leb. Qed.

Lemma eqb_leb x y : (x =? y) = true -> (y <=? x) = true.
Proof. rewrite leb_spec, eqb_spec. apply Binary64Facts.SFeqb_leb. Qed.

(** *** A normal value divided by the square of its root *)

Lemma self_quotient_near_one m :
  classify m = PNormal ->
  Binary64.near_one (Prim2SF (m / (sqrt m * sqrt m))).
Proof.
  intros H. rewrite classify_spec in H.
  destruct (@Binary64Facts.normal_spec (Prim2SF m) (Prim2SF_valid m) H)
    as [M [E [Hm [Hd HE]]]].
  rewrite div_spec, mul_spec, sqrt_spec, Hm.
  now apply Binary64Facts.self_quotient.
Qed.

End Float64Facts.


(** ** The loop of [cosineSimilarity], by recursion on the first vector *)

Module LoopFacts.

Import Loop.

Lemma index_tl (b : list number) i : index b (S i) = index (tl b) i.
Proof. destruct b; [now destruct i|reflexivity]. Qed.

Lemma index_0 (b : list number) : index b 0 = hd nan b.
Proof. now destruct b. Qed.

Lemma fold_shift x a b n k s :
  fold_left (accumulate (x :: a) b) (seq (S k) n) s
  = fold_left (accumulate a (tl b)) (seq k n) s.
Proof.
  revert k s. induction n as [|n IH]; intros k s; [reflexivity|].
  simpl. rewrite IH. f_equal.
  unfold accumulate. rewrite !index_tl. reflexivity.
Qed.

Lemma fold_run a : forall b s,
  fold_left (accumulate a b) (seq 0 (length a)) s = run a b s.
Proof.
  induction a as [|x a IH]; intros b s; [reflexivity|].
  simpl. rewrite fold_shift, IH. f_equal.
  unfold accumulate, add_pair. rewrite !index_0. reflexivity.
Qed.

Lemma loop_run a b : loop a b = run a b sums0.
Proof. apply fold_run. Qed.

(** Components of [b] beyond the length of [a] are never read. *)
Lemma run_firstn a : forall b s, run a b s = run a (firstn (length a) b) s.
Proof.
  induction a as [|x a IH]; intros b s; [reflexivity|].
  destruct b as [|y b]; [reflexivity|]. simpl. apply IH.
Qed.

(** Once NaN, the dot product stays NaN. *)
Lemma dot_nan a : forall b s, dot s = nan -> dot (run a b s) = nan.
Proof.
  induction a as [|x a IH]; intros b s H; [exact H|].
  simpl. apply IH. simpl. rewrite H. apply Float64Facts.add_nan_l.
Qed.

(** A vector [a] longer than [b] reads [undefined] from [b]. *)
Lemma dot_nan_longer a : forall b s,
  (length b < length a)%nat -> dot (run a b s) = nan.
Proof.
  induction a as [|x a IH]; intros b s H; simpl in H; [lia|].
  destruct b as [|y b]; simpl.
  - apply dot_nan. simpl. rewrite Float64Facts.mul_nan_r. apply Float64Facts.add_nan_r.
  - apply IH. simpl in H. lia.
Qed.

Lemma run_swap a : forall b s,
  length a = length b -> run b a (swap s) = swap (run a b s).
Proof.
  induction a as [|x a IH]; intros [|y b] s H; try discriminate; [reflexivity|].
  injection H as H. simpl. rewrite <- IH by exact H. f_equal.
  unfold swap, add_pair. simpl. now rewrite (Float64Facts.mul_comm y x).
Qed.

(** With a vector of zeros, the dot product is a zero or NaN and the
    magnitude of that vector is a zero. *)
Lemma run_zero_a a : forall b s,
  Forall (fun x => is_zero x = true) a ->
  Float64.zero_or_nan (dot s) -> is_zero (magA s) = true ->
  Float64.zero_or_nan (dot (run a b s)) /\ is_zero (magA (run a b s)) = true.
Proof.
  induction a as [|x a IH]; intros b s Ha Hd Hm; [now split|].
  inversion Ha as [|? ? Hx Ha']; subst. simpl. apply IH; trivial; simpl.
  - apply Float64Facts.add_zero_or_nan; trivial. now apply Float64Facts.mul_zero_l.
  - apply Float64Facts.add_zero_zero; trivial. now apply Float64Facts.mul_zero_zero.
Qed.

Lemma run_zero_b a : forall b s,
  length a = length b ->
  Forall (fun y => is_zero y = true) b ->
  Float64.zero_or_nan (dot s) -> is_zero (magB s) = true ->
  Float64.zero_or_nan (dot (run a b s)) /\ is_zero (magB (run a b s)) = true.
Proof.
  intros b s Hlen Hb Hd Hm.
  generalize (@run_zero_a b a (swap s) Hb Hd Hm).
  rewrite run_swap by exact Hlen. trivial.
Qed.

(** On [a] and [a] itself the three sums are the same sum of squares. *)
Lemma run_self a : forall s,
  dot s = magA s -> magB s = magA s ->
  dot (run a a s) = magA (run a a s) /\ magB (run a a s) = magA (run a a s).
Proof.
  induction a as [|x a IH]; intros s Hd Hb; [now split|].
  simpl. apply IH; simpl; congruence.
Qed.

End LoopFacts.


(** ** Properties of [cosineSimilarity] *)

Lemma cosineSimilarity_run a b :
  cosineSimilarity a b
  = Normal (dot (Loop.run a b sums0)
            / (sqrt (magA (Loop.run a b sums0)) * sqrt (magB (Loop.run a b sums0)))).
Proof. unfold cosineSimilarity. now rewrite LoopFacts.loop_run. Qed.

(** C1, as the design states it, fails: on vectors of lengths 1 and 2 the
    scorer returns a number, the one it returns on the longer vector cut to
    length 1, and raises nothing. *)
Lemma cosineSimilarity_mismatch_returns :
  ~ (forall a b : list number,
        length a <> length b ->
        cosineSimilarity a b = Throw "DimensionMismatchError"%string).
Proof.
  intros H. specialize (H [1] [1; 2]).
  assert (Hc : cosineSimilarity [1] [1; 2] = Normal 1) by (vm_compute; reflexivity).
  rewrite Hc in H. discriminate H. simpl. lia.
Qed.

(** C1 (amended): [cosineSimilarity] has no length check and never throws.
    It reads both vectors at the indices of [a]: when [a] is the shorter
    vector the extra components of [b] are ignored, and when [a] is the
    longer one the components missing from [b] read as [undefined] and the
    result is NaN. *)
Theorem cosineSimilarity_length_mismatch (a b : list number) :
  (exists v, cosineSimilarity a b = Normal v)
  /\ ((length a < length b)%nat ->
      cosineSimilarity a b = cosineSimilarity a (firstn (length a) b))
  /\ ((length b < length a)%nat -> cosineSimilarity a b = Normal nan).
Proof.
  split; [eexists; reflexivity|]. split; intros H.
  - rewrite !cosineSimilarity_run. now rewrite <- LoopFacts.run_firstn.
  - rewrite cosineSimilarity_run. f_equal.
    rewrite LoopFacts.dot_nan_longer by exact H. apply Float64Facts.div_nan_l.
Qed.

(** C3, as the design states it, fails: with a zero vector the scorer
    returns NaN, not 0, and a score need not lie in [-1, 1]: it can be
    NaN or infinite. *)
Lemma cosineSimilarity_zero_not_guarded :
  ~ (forall a b : list number,
        length a = length b -> zero_vector a \/ zero_vector b ->
        cosineSimilarity a b = Normal 0)
  /\ ~ (forall (a b : list number) v,
        length a = length b -> cosineSimilarity a b = Normal v ->
        (-1 <=? v) && (v <=? 1) = true).
Proof.
  split; intros H.
  - specialize (H [0; 0] [1; 2] eq_refl).
    assert (Hc : cosineSimilarity [0; 0] [1; 2] = Normal nan) by (vm_compute; reflexivity).
    rewrite Hc in H. discriminate H.
    left. repeat constructor.
  - specialize (H [0x1p-600] [0x1p-400] infinity eq_refl).
    assert (Hc : cosineSimilarity [0x1p-600] [0x1p-400] = Normal infinity)
      by (vm_compute; reflexivity).
    specialize (H Hc). vm_compute in H. discriminate H.
Qed.

(** C3 (amended): the division is not guarded. For vectors of equal length
    of which one is a zero vector, [cosineSimilarity] returns NaN. *)
Theorem cosineSimilarity_zero_vector (a b : list number) :
  length a = length b ->
  zero_vector a \/ zero_vector b ->
  cosineSimilarity a b = Normal nan.
Proof.
  intros Hlen Hz. rewrite cosineSimilarity_run. f_equal.
  assert (H0 : Float64.zero_or_nan (dot sums0)) by (right; reflexivity).
  destruct Hz as [Ha|Hb].
  - destruct (@LoopFacts.run_zero_a a b sums0 Ha H0 eq_refl) as [Hd Hm].
    apply Float64Facts.div_zero_or_nan; trivial.
    apply Float64Facts.mul_zero_l. now apply Float64Facts.sqrt_zero.
  - destruct (@LoopFacts.run_zero_b a b sums0 Hlen Hb H0 eq_refl) as [Hd Hm].
    apply Float64Facts.div_zero_or_nan; trivial.
    apply Float64Facts.mul_zero_r. now apply Float64Facts.sqrt_zero.
Qed.

Lemma cosineSimilarity_zero_vector_witness :
  cosineSimilarity [0; -0; 0] [1; 2; 3] = Normal nan.
Proof.
  apply cosineSimilarity_zero_vector; [reflexivity|].
  left. repeat constructor.
Defined.

Lemma close_to_refl v : is_finite v = true -> close_to v v = true.
Proof.
  intros H. unfold close_to. rewrite Float64Facts.sub_diag by exact H.
  vm_compute. reflexivity.
Qed.

(** C7: for vectors of equal length, [cosineSimilarity a b] and
    [cosineSimilarity b a] return the same double [v = w]; in particular,
    when that value is finite, [Math.abs(v - w) <= 1e-9] holds. (When the
    value is NaN, both calls return NaN.) *)
Theorem cosineSimilarity_symmetric (a b : list number) :
  length a = length b ->
  exists v w,
    cosineSimilarity a b = Normal v
    /\ cosineSimilarity b a = Normal w
    /\ v = w
    /\ (is_finite v = true -> close_to v w = true).
Proof.
  intros Hlen. rewrite !cosineSimilarity_run.
  do 2 eexists. split; [reflexivity|]. split; [reflexivity|].
  assert (E : dot (Loop.run a b sums0)
              / (sqrt (magA (Loop.run a b sums0)) * sqrt (magB (Loop.run a b sums0)))
              = dot (Loop.run b a sums0)
              / (sqrt (magA (Loop.run b a sums0)) * sqrt (magB (Loop.run b a sums0)))).
  { change (Loop.run b a sums0) with (Loop.run b a (Loop.swap sums0)).
    rewrite (LoopFacts.run_swap a b sums0 Hlen). simpl.
    now rewrite (Float64Facts.mul_comm (sqrt (magB _))). }
  split; [exact E|]. rewrite <- E. apply close_to_refl.
Qed.

Lemma cosineSimilarity_symmetric_witness :
  exists v w,
    cosineSimilarity [1; 2; 3] [-4; 5; 0.5] = Normal v
    /\ cosineSimilarity [-4; 5; 0.5] [1; 2; 3] = Normal w
    /\ v = w
    /\ (is_finite v = true -> close_to v w = true).
Proof. apply cosineSimilarity_symmetric. reflexivity. Defined.

(** ** Properties of the streaming relay *)

Module RelayFacts.

Import Relay.

Lemma truthy_false token :
  truthy token = false <-> token = None \/ token = Some EmptyString.
Proof.
  destruct token as [[|c s]|]; simpl; split; auto; try discriminate.
  intros [H|H]; discriminate.
Qed.


Lemma for_await_yields cs : forall tail w,
  for_await (yields cs tail) w
  = for_await tail {| res := res w ++ map Write (forwarded cs); console := console w |}.
Proof.
  induction cs as [|chunk cs IH]; intros tail w; simpl.
  - rewrite app_nil_r. now destruct w.
  - unfold Action.bind at 1. fold (yields cs tail).
    destruct (truthy (token_of chunk)); simpl; rewrite IH; simpl.
    + now rewrite <- app_assoc.
    + reflexivity.
Qed.

Lemma written_writes l : written (map Write l) = l.
Proof. induction l as [|x l IH]; simpl; congruence. Qed.

Lemma written_app l1 l2 : written (l1 ++ l2) = written l1 ++ written l2.
Proof. apply flat_map_app. Qed.



Lemma forwarded_nonempty cs : Forall (fun d => d <> EmptyString) (forwarded cs).
Proof.
  induction cs as [|chunk cs IH]; [constructor|]. simpl.
  unfold chunk_text. destruct (token_of chunk) as [[|c s]|]; simpl; trivial.
  constructor; [discriminate|exact IH].
Qed.

Lemma no_end_in_writes l : forallb (fun ev => negb (is_end ev)) (headers ++ map Write l) = true.
Proof.
  rewrite forallb_app. simpl. induction l as [|x l IH]; [reflexivity|exact IH].
Qed.


(** The run of the handler on a stream that fails with [e] after the
    chunks [cs]. *)
Lemma chat_stream_failed create_stream message cs e :
  create_stream message = Normal (yields cs (Fail e)) ->
  chat_stream create_stream message world0
  = (Normal tt, {| res := headers ++ map Write (forwarded cs) ++ [End]; console := [e] |}).
Proof.
  intros H. unfold chat_stream, Action.try_catch, Action.bind, Action.await, Action.emit.
  simpl. rewrite H, for_await_yields. reflexivity.
Qed.

End RelayFacts.

Example scenario_run :
  chat_stream (fun _ => Normal (Relay.yields scenario_chunks Done)) "2+2?" world0
  = (Normal tt,
     {| res := Relay.headers
               ++ [Write "The"; Write " answer"; Write " is"; Write " 4."; End];
        console := [] |}).
Proof. reflexivity. Qed.

Example scenario_body :
  Relay.concat_all ["The"; " answer"; " is"; " 4."]%string = "The answer is 4."%string.
Proof. reflexivity. Qed.



(** C9: when the completion stream fails with [e] after the chunks [cs],
    the handler does not throw: it returns normally with the response
    ended once, as the last thing done to it; the body holds the tokens
    forwarded before the failure and nothing else, and the error goes to
    the console. *)
Theorem relay_ends_on_failure
  (create_stream : string -> completion stream) (message : string)
  (cs : list Chunk.t) (e : error) :
  create_stream message = Normal (Relay.yields cs (Fail e)) ->
  exists w,
    chat_stream create_stream message world0 = (Normal tt, w)
    /\ written (res w) = Relay.forwarded cs
    /\ console w = [e]
    /\ exists before,
         res w = before ++ [End]
         /\ forallb (fun ev => negb (is_end ev)) before = true.
Proof.
  intros H. eexists. split; [exact (RelayFacts.chat_stream_failed _ _ _ _ H)|].
  cbn [res console]. split.
  - rewrite !RelayFacts.written_app, RelayFacts.written_writes. simpl. apply app_nil_r.
  - split; [reflexivity|].
    exists (Relay.headers ++ map Write (Relay.forwarded cs)). split.
    + now rewrite <- app_assoc.
    + apply RelayFacts.no_end_in_writes.
Qed.

Lemma relay_ends_on_failure_witness :
  exists w,
    chat_stream
      (fun _ => Normal (Relay.yields (firstn 2 scenario_chunks) (Fail "ECONNRESET"%string)))
      "2+2?" world0
    = (Normal tt, w)
    /\ written (res w) = Relay.forwarded (firstn 2 scenario_chunks)
    /\ console w = ["ECONNRESET"%string]
    /\ exists before,
         res w = before ++ [End]
         /\ forallb (fun ev => negb (is_end ev)) before = true.
Proof. apply relay_ends_on_failure. reflexivity. Defined.

Example failure_run :
  chat_stream
    (fun _ => Normal (Relay.yields (firstn 2 scenario_chunks) (Fail "ECONNRESET"%string)))
    "2+2?" world0
  = (Normal tt,
     {| res := Relay.headers ++ [Write "The"; Write " answer"; End];
        console := ["ECONNRESET"%string] |}).
Proof. reflexivity. Qed.

(** A failure of the completion call itself takes the same path. *)
Lemma chat_stream_rejected create_stream message e :
  create_stream message = Throw e ->
  chat_stream create_stream message world0
  = (Normal tt, {| res := Relay.headers ++ [End]; console := [e] |}).
Proof.
  intros H. unfold chat_stream, Action.try_catch, Action.bind, Action.await, Action.emit.
  simpl. now rewrite H.
Qed.

(** C10: a chunk whose first choice is missing, or has no delta, or whose
    delta content is absent or the empty string, leaves the response as it
    is; and whatever the stream, each piece of data the loop writes is a
    non-empty token. *)
Theorem relay_skips_empty_tokens :
  (forall chunk rest w,
      token_of chunk = None \/ token_of chunk = Some EmptyString ->
      for_await (Yield chunk rest) w = for_await rest w)
  /\ (forall s w, exists new,
        res (snd (for_await s w)) = res w ++ map Write new
        /\ Forall (fun d => d <> EmptyString) new).
Proof.
  split.
  - intros chunk rest w H. apply RelayFacts.truthy_false in H.
    simpl. unfold Action.bind. now rewrite H.
  - induction s as [|chunk rest IH|e]; intros w.
    + exists []. simpl. now rewrite app_nil_r.
    + simpl. unfold Action.bind.
      destruct (token_of chunk) as [[|c t]|]; simpl; try apply IH.
      destruct (IH {| res := res w ++ [Write (String c t)]; console := console w |})
        as [new [Hres Hnew]].
      exists (String c t :: new). rewrite Hres. simpl. split.
      * now rewrite <- app_assoc.
      * constructor; [discriminate|exact Hnew].
    + exists []. simpl. now rewrite app_nil_r.
Qed.

Example skip_empty_run :
  chat_stream
    (fun _ => Normal (Relay.yields
       [Relay.chunk_of None; Relay.chunk_of (Some "Hi"%string);
        Relay.chunk_of (Some EmptyString); {| Chunk.choices := [] |};
        {| Chunk.choices := [{| Chunk.delta := None |}] |}] Done))
    "hello" world0
  = (Normal tt, {| res := Relay.headers ++ [Write "Hi"; End]; console := [] |}).
Proof. reflexivity. Qed.

(** ** The sort of [retrieveContext] *)

Module RankingFacts.

Import Ranking.

Section SortFacts.
Variables A B : Type.
Variable comparefn : A -> A -> number.

Lemma insert_perm x l : Permutation (insert comparefn x l) (x :: l).
Proof.
  induction l as [|y l IH]; simpl; [reflexivity|].
  destruct (0 <? SortCompare comparefn x y); [|reflexivity].
  rewrite IH. apply perm_swap.
Qed.

Lemma sort_perm l : Permutation (sort comparefn l) l.
Proof.
  induction l as [|x l IH]; simpl; [reflexivity|].
  rewrite insert_perm. now constructor.
Qed.

Lemma insert_map (f : B -> A) x l :
  insert comparefn (f x) (map f l)
  = map f (insert (fun u v => comparefn (f u) (f v)) x l).
Proof.
  induction l as [|y l IH]; simpl; [reflexivity|].
  change (SortCompare (fun u v => comparefn (f u) (f v)) x y)
    with (SortCompare comparefn (f x) (f y)).
  destruct (0 <? SortCompare comparefn (f x) (f y)); simpl;
    [now rewrite IH|reflexivity].
Qed.

Lemma sort_map (f : B -> A) l :
  sort comparefn (map f l) = map f (sort (fun u v => comparefn (f u) (f v)) l).
Proof.
  induction l as [|x l IH]; simpl; [reflexivity|].
  now rewrite IH, insert_map.
Qed.

End SortFacts.

(** The comparator says "strictly greater" exactly when the first score
    is strictly less than the second. *)
Lemma SortCompare_positive (a b : Scored.t) :
  (0 <? SortCompare by_score_desc a b) = (Scored.score a <? Scored.score b).
Proof.
  unfold SortCompare, by_score_desc.
  destruct (is_nan (Scored.score b - Scored.score a)) eqn:E.
  - rewrite <- (Float64Facts.sub_positive (Scored.score a) (Scored.score b)).
    now rewrite (@Float64Facts.ltb_nan_r 0 _ E).
  - apply Float64Facts.sub_positive.
Qed.

Lemma insert_ranked x : forall l,
  is_number x -> Forall is_number l ->
  Forall (fun y => (fst x < fst y)%nat) l ->
  StronglySorted ranks_before l ->
  StronglySorted ranks_before (insert by_placed_score x l).
Proof.
  induction l as [|y l IH]; intros Hx Hl Hpos Hs; simpl.
  - repeat constructor.
  - inversion Hl as [|? ? Hy Hl']; subst.
    inversion Hpos as [|? ? Hxy Hpos']; subst.
    apply StronglySorted_inv in Hs as [Hs Hyl].
    change (SortCompare by_placed_score x y)
      with (SortCompare by_score_desc (snd x) (snd y)).
    rewrite SortCompare_positive.
    destruct (Scored.score (snd x) <? Scored.score (snd y)) eqn:E.
    + constructor; [now apply IH|].
      apply (Permutation_Forall (Permutation_sym (insert_perm by_placed_score x l))).
      constructor; [now left|exact Hyl].
    + assert (Hyx : (Scored.score (snd y) <=? Scored.score (snd x)) = true)
        by (now apply Float64Facts.ltb_false).
      constructor; [now constructor|].
      assert (Hle : Forall (fun z => (Scored.score (snd z) <=? Scored.score (snd x)) = true)
                      (y :: l)).
      { constructor; [exact Hyx|].
        eapply Forall_impl; [|exact Hyl]. intros z [Hz|[Hz _]].
        - apply Float64Facts.leb_trans with (2 := Hyx). now apply Float64Facts.ltb_leb.
        - apply Float64Facts.leb_trans with (2 := Hyx). now apply Float64Facts.eqb_leb. }
      rewrite Forall_forall in Hle, Hpos. apply Forall_forall. intros z Hz.
      destruct (@Float64Facts.leb_cases _ _ (Hle z Hz)) as [H|H]; [now left|right].
      split; [exact H|]. now apply Hpos.
Qed.

Lemma sort_ranked : forall l,
  Forall is_number l ->
  StronglySorted (fun x y : placed => (fst x < fst y)%nat) l ->
  StronglySorted ranks_before (sort by_placed_score l).
Proof.
  induction l as [|x l IH]; intros Hl Hs; simpl; [constructor|].
  inversion Hl as [|? ? Hx Hl']; subst.
  apply StronglySorted_inv in Hs as [Hs Hxl].
  pose proof (Permutation_sym (sort_perm by_placed_score l)) as Hp.
  apply insert_ranked; trivial.
  - apply (Permutation_Forall Hp Hl').
  - apply (Permutation_Forall Hp Hxl).
  - now apply IH.
Qed.

Lemma tagged_from scored : forall k,
  StronglySorted (fun x y : placed => (fst x < fst y)%nat)
    (combine (seq k (length scored)) scored)
  /\ map snd (combine (seq k (length scored)) scored) = scored.
Proof.
  induction scored as [|c scored IH]; intros k; simpl; [split; constructor|].
  destruct (IH (S k)) as [Hs Hm]. split; [|now rewrite Hm].
  constructor; [exact Hs|]. apply Forall_forall. intros [i c'] Hin.
  apply in_combine_l, in_seq in Hin. simpl. lia.
Qed.

Lemma sort_tagged scored :
  map snd (sort by_placed_score (tagged scored)) = sort by_score_desc scored.
Proof.
  pose proof (@sort_map Scored.t placed by_score_desc snd (tagged scored)) as H.
  unfold tagged in H at 1. rewrite (proj2 (tagged_from scored 0)) in H.
  symmetry. exact H.
Qed.

Lemma tagged_numbers scored :
  Forall (fun c => is_nan (Scored.score c) = false) scored ->
  Forall is_number (tagged scored).
Proof.
  intros H. rewrite Forall_forall in H. apply Forall_forall.
  intros [i c] Hin. apply in_combine_r in Hin. now apply H.
Qed.

End RankingFacts.


(** ** Properties of [retrieveContext] *)

Lemma slice_0 {A} (l : list A) n : slice l 0 n = firstn n l.
Proof. unfold slice. now rewrite Nat.sub_0_r. Qed.

Lemma map_completion_candidates q documents :
  map_completion (score_document q) documents = Normal (Ranking.candidates q documents).
Proof.
  induction documents as [|doc documents IH]; simpl; [reflexivity|].
  now rewrite IH.
Qed.

(** The scorer never throws, so the only call of [retrieveContext] that
    can is the embedding of the query. *)
Lemma retrieveContext_run embedText documents query :
  retrieveContext embedText documents query
  = (q <- embedText query ;;
     Normal (join newline
               (map Scored.content
                  (firstn 2 (sort by_score_desc (Ranking.candidates q documents)))))).
Proof.
  unfold retrieveContext, bind. destruct (embedText query) as [q|e]; [|reflexivity].
  now rewrite map_completion_candidates, slice_0.
Qed.





Example scenario_retrieve :
  retrieveContext (fun _ => Normal [1; 0.125]) scenario_store "are cats mammals?"
  = Normal ("cats are mammals" ++ newline ++ "dogs are mammals")%string.
Proof. vm_compute. reflexivity. Qed.

(** Candidates of equal score keep their store order. *)
Example tie_retrieve :
  retrieveContext (fun _ => Normal [1; 0])
    [{| content := "c"; embedding := [0; 1] |};
     {| content := "a"; embedding := [2; 0] |};
     {| content := "b"; embedding := [1; 0] |}] "q"
  = Normal ("a" ++ newline ++ "b")%string.
Proof. vm_compute. reflexivity. Qed.

Example zero_store_scores :
  map Scored.score (Ranking.candidates [1; 0] zero_store) = [0; nan; 1].
Proof. vm_compute. reflexivity. Qed.

Lemma StronglySorted_related {A} (R : A -> A -> Prop) l :
  StronglySorted R l ->
  forall x l1 y l2, l = l1 ++ x :: l2 -> In y l2 -> R x y.
Proof.
  induction 1 as [|a l Hs IH Ha]; intros x l1 y l2 E Hy.
  - destruct l1; discriminate E.
  - destruct l1 as [|b l1]; simpl in E; injection E as -> ->.
    + rewrite Forall_forall in Ha. now apply Ha.
    + now apply (IH x l1 y l2).
Qed.

(** In a ranking, of two different members one ranks before the other. *)
Lemma StronglySorted_total {A} (R : A -> A -> Prop) l x y :
  StronglySorted R l -> In x l -> In y l -> x = y \/ R x y \/ R y x.
Proof.
  intros Hs Hx Hy. apply in_split in Hx as [l1 [l2 ->]].
  apply in_app_or in Hy as [Hy|[Hy|Hy]].
  - apply in_split in Hy as [l3 [l4 ->]]. right. right.
    rewrite <- app_assoc in Hs. simpl in Hs.
    apply (StronglySorted_related Hs y l3 x (l4 ++ x :: l2) eq_refl).
    apply in_or_app. right. now left.
  - now left.
  - right. left. now apply (StronglySorted_related Hs x l1 y l2 eq_refl).
Qed.

(** C2, as the design states it, fails on [zero_store]: the candidate of
    document B has the score NaN, no order by score ranks the three
    candidates, and the context returned is that of A and B although C has
    the highest score. *)
Lemma retrieve_not_ranked :
  retrieveContext (fun _ => Normal [1; 0]) zero_store "q"
  = Normal ("A" ++ newline ++ "B")%string
  /\ ~ (forall (embedText : string -> completion (list number))
               (documents : list Document) (query : string) (q : list number),
          documents <> [] ->
          embedText query = Normal q ->
          exists ranked,
            Permutation ranked (Ranking.tagged (Ranking.candidates q documents))
            /\ StronglySorted Ranking.ranks_before ranked
            /\ retrieveContext embedText documents query
               = Normal (join newline
                           (map (fun r => Scored.content (snd r)) (firstn 2 ranked)))).
Proof.
  split; [vm_compute; reflexivity|].
  intros H.
  destruct (H (fun _ => Normal [1; 0]) zero_store "q"%string [1; 0]) as [ranked [Hp [Hs _]]];
    [discriminate|reflexivity|].
  set (a := (0%nat, Ranking.candidate [1; 0] (nth 0 zero_store (Build_Document "" [])))).
  set (b := (1%nat, Ranking.candidate [1; 0] (nth 1 zero_store (Build_Document "" [])))).
  assert (Ha : In a ranked).
  { apply (Permutation_in _ (Permutation_sym Hp)). left. reflexivity. }
  assert (Hb : In b ranked).
  { apply (Permutation_in _ (Permutation_sym Hp)). right. left. reflexivity. }
  destruct (StronglySorted_total a b Hs Ha Hb) as [E|[[E|[E _]]|[E|[E _]]]];
    vm_compute in E; discriminate E.
Qed.

(** C2 (amended): when the embedding of the query succeeds and no
    candidate's score is NaN, [retrieveContext] scores every stored
    document once, ranks the candidates by score, highest first, with the
    store order among equal scores, and returns the contents of the first
    two in rank order, joined by a newline. *)
Theorem retrieve_ranked
  (embedText : string -> completion (list number))
  (documents : list Document) (query : string) (q : list number) :
  embedText query = Normal q ->
  Forall (fun c => is_nan (Scored.score c) = false) (Ranking.candidates q documents) ->
  exists ranked,
    Permutation ranked (Ranking.tagged (Ranking.candidates q documents))
    /\ StronglySorted Ranking.ranks_before ranked
    /\ retrieveContext embedText documents query
       = Normal (join newline
                   (map (fun r => Scored.content (snd r)) (firstn 2 ranked))).
Proof.
  intros Hq Hnum.
  set (scored := Ranking.candidates q documents) in *.
  destruct (RankingFacts.tagged_from scored 0) as [Hinc Hsnd].
  exists (sort Ranking.by_placed_score (Ranking.tagged scored)).
  split; [apply RankingFacts.sort_perm|]. split.
  - apply RankingFacts.sort_ranked; [now apply RankingFacts.tagged_numbers|exact Hinc].
  - rewrite retrieveContext_run, Hq. unfold bind. fold scored. f_equal. f_equal.
    rewrite <- (map_map snd Scored.content), <- (firstn_map snd).
    now rewrite RankingFacts.sort_tagged.
Qed.

Lemma retrieve_ranked_witness :
  exists ranked,
    Permutation ranked
      (Ranking.tagged (Ranking.candidates [1; 0.125] scenario_store))
    /\ StronglySorted Ranking.ranks_before ranked
    /\ retrieveContext (fun _ => Normal [1; 0.125]) scenario_store "are cats mammals?"
       = Normal (join newline
                   (map (fun r => Scored.content (snd r)) (firstn 2 ranked))).
Proof.
  apply (retrieve_ranked (fun _ => Normal [1; 0.125]) scenario_store
           "are cats mammals?" eq_refl).
  repeat constructor.
Defined.

Lemma close_to_one v : Binary64.near_one (Prim2SF v) -> close_to v 1 = true.
Proof.
  intros H. unfold close_to. rewrite leb_spec, abs_spec, sub_spec.
  now apply Binary64Facts.near_one_close.
Qed.

(** C8, as the design states it, fails: for the non-zero vector [2^600]
    the sum of squares overflows and the score is NaN, and for [2^-600] it
    underflows to zero and the score is NaN again. *)
Lemma cosineSimilarity_self_overflow :
  ~ (forall a : list number,
        ~ zero_vector a ->
        exists v, cosineSimilarity a a = Normal v /\ close_to v 1 = true).
Proof.
  intros H. destruct (H [0x1p600]) as [v [Hv Hc]].
  - intros Hz. inversion Hz as [|? ? H0 _]. vm_compute in H0. discriminate H0.
  - assert (E : cosineSimilarity [0x1p600] [0x1p600] = Normal nan)
      by (vm_compute; reflexivity).
    rewrite E in Hv. injection Hv as <-. vm_compute in Hc. discriminate Hc.
Qed.

Example cosine_self_underflow :
  cosineSimilarity [0x1p-600] [0x1p-600] = Normal nan.
Proof. vm_compute. reflexivity. Qed.

(** C8 (amended): for every vector [a] whose sum of squares, as the loop
    computes it, is a positive normal double (it has neither overflowed
    nor underflowed), [cosineSimilarity a a] is within [1e-9] of [1.0]:
    [Math.abs(v - 1) <= 1e-9]. *)
Theorem cosineSimilarity_self (a : list number) :
  classify (magA (loop a a)) = PNormal ->
  exists v, cosineSimilarity a a = Normal v /\ close_to v 1 = true.
Proof.
  intros H. eexists. split; [reflexivity|].
  rewrite LoopFacts.loop_run in *.
  destruct (@LoopFacts.run_self a sums0 eq_refl eq_refl) as [Hd Hb].
  rewrite Hd, Hb. apply close_to_one. now apply Float64Facts.self_quotient_near_one.
Qed.

Lemma cosineSimilarity_self_witness :
  exists v, cosineSimilarity [3; 4] [3; 4] = Normal v /\ close_to v 1 = true.
Proof. apply cosineSimilarity_self. reflexivity. Defined.

(** The score of a vector with itself need not be exactly [1]. *)
Example cosine_self_value :
  cosineSimilarity [1; 1] [1; 1] = Normal 0x1.ffffffffffffep-1.
Proof. vm_compute. reflexivity. Qed.

(** * The rest of the server *)

(** ** [validateChatInput] *)

Module ValidateFacts.

Lemma drop_while_nil p l : drop_while p l = [] <-> forallb p l = true.
Proof.
  induction l as [|c l IH]; simpl; [tauto|].
  destruct (p c); simpl; [exact IH|]. split; discriminate.
Qed.

(** What [drop_while] leaves starts with a character that is kept. *)
Lemma drop_while_head p l :
  forallb p (drop_while p l) = true -> drop_while p l = [].
Proof.
  induction l as [|c l IH]; simpl; trivial.
  destruct (p c) eqn:E; trivial. simpl. rewrite E. discriminate.
Qed.

Lemma forallb_rev (p : ascii -> bool) l : forallb p (rev l) = forallb p l.
Proof.
  induction l as [|c l IH]; simpl; trivial.
  rewrite forallb_app, IH. simpl. rewrite andb_true_r. apply andb_comm.
Qed.

Lemma length_of_list_ascii l : String.length (string_of_list_ascii l) = length l.
Proof. induction l as [|c l IH]; simpl; congruence. Qed.

(** [message.trim().length === 0] holds exactly for the blank strings. *)
Lemma trim_blank s : (String.length (trim s) =? 0)%nat = blank s.
Proof.
  unfold trim, blank. rewrite length_of_list_ascii, length_rev.
  set (l := list_ascii_of_string s).
  destruct (forallb is_whitespace l) eqn:E.
  - apply drop_while_nil in E. rewrite E. reflexivity.
  - apply Nat.eqb_neq. intros H. apply length_zero_iff_nil in H.
    apply drop_while_nil in H. rewrite forallb_rev in H.
    apply drop_while_head, drop_while_nil in H. congruence.
Qed.

Lemma blank_empty : blank EmptyString = true.
Proof. reflexivity. Qed.

End ValidateFacts.

(** X1: the middleware calls [next()] exactly for a message that is a string
    with a character that is not white space. *)
Theorem validateChatInput_next (message : option json) :
  validateChatInput message = Next
  <-> exists s, message = Some (JString s) /\ blank s = false.
Proof.
  unfold validateChatInput. split.
  - destruct (falsy message) eqn:F; [discriminate|].
    destruct message as [[| | |s| |]|]; try discriminate.
    rewrite ValidateFacts.trim_blank. destruct (blank s) eqn:B; [discriminate|].
    intros _. now exists s.
  - intros [s [-> B]]. simpl. destruct s as [|c s]; [discriminate B|].
    now rewrite ValidateFacts.trim_blank, B.
Qed.

(** X2: the answer "Message cannot be empty" is given exactly to the strings
    that are not empty and hold white space only; the empty string is
    answered as a missing field is. *)
Theorem validateChatInput_blank (message : option json) :
  validateChatInput message = Rejected 400 "Message cannot be empty"
  <-> exists s, message = Some (JString s) /\ s <> EmptyString /\ blank s = true.
Proof.
  unfold validateChatInput. split.
  - destruct (falsy message) eqn:F; [discriminate|].
    destruct message as [[| | |s| |]|]; try discriminate.
    rewrite ValidateFacts.trim_blank. destruct (blank s) eqn:B; [|discriminate].
    intros _. exists s. split; [reflexivity|]. split; [|exact B].
    intros ->. discriminate F.
  - intros [s [-> [Hs B]]]. simpl. destruct s as [|c s]; [congruence|].
    now rewrite ValidateFacts.trim_blank, B.
Qed.

(** X3: the answer "Message field is required" is given exactly to the falsy
    values: a missing member, [null], [false], the empty string, and the
    numbers [0], [-0] and NaN. *)
Theorem validateChatInput_required (message : option json) :
  validateChatInput message = Rejected 400 "Message field is required"
  <-> message = None \/ message = Some JNull \/ message = Some (JBool false)
      \/ message = Some (JString "")
      \/ exists n, message = Some (JNumber n) /\ (is_zero n = true \/ is_nan n = true).
Proof.
  unfold validateChatInput. split.
  - destruct message as [[|[|]|n|[|c s]|items|fields]|]; simpl; auto; try discriminate.
    + destruct (is_zero n || is_nan n) eqn:E; [|discriminate].
      intros _. do 4 right. exists n. split; [reflexivity|]. now apply orb_prop.
    + destruct (String.length (trim (String c s)) =? 0)%nat; discriminate.
  - intros [->|[->|[->|[->|[n [-> H]]]]]]; try reflexivity.
    simpl. destruct H as [-> | ->]; [reflexivity|]. now rewrite orb_true_r.
Qed.

(** X4: the answer "Message must be a string" is given exactly to the truthy
    values that are no strings: [true], a number other than [0], [-0] and
    NaN, an array and an object, empty ones included. *)
Theorem validateChatInput_not_string (message : option json) :
  validateChatInput message = Rejected 400 "Message must be a string"
  <-> message = Some (JBool true)
      \/ (exists n, message = Some (JNumber n) /\ is_zero n = false /\ is_nan n = false)
      \/ (exists items, message = Some (JArray items))
      \/ (exists fields, message = Some (JObject fields)).
Proof.
  unfold validateChatInput. split.
  - destruct message as [[|[|]|n|[|c s]|items|fields]|]; simpl; eauto; try discriminate.
    + destruct (is_zero n || is_nan n) eqn:E; [discriminate|].
      intros _. right. left. exists n. split; [reflexivity|]. now apply orb_false_elim.
    + destruct (String.length (trim (String c s)) =? 0)%nat; discriminate.
  - intros [->|[[n [-> [Hz Hn]]]|[[items ->]|[fields ->]]]]; try reflexivity.
    simpl. now rewrite Hz, Hn.
Qed.

Example validate_examples :
  validateChatInput (Some (JString "  hi ")) = Next
  /\ validateChatInput (Some (JString "   ")) = Rejected 400 "Message cannot be empty"
  /\ validateChatInput (Some (JString "")) = Rejected 400 "Message field is required"
  /\ validateChatInput (Some (JNumber 0)) = Rejected 400 "Message field is required"
  /\ validateChatInput (Some (JNumber 7)) = Rejected 400 "Message must be a string"
  /\ validateChatInput (Some (JArray [])) = Rejected 400 "Message must be a string"
  /\ validateChatInput None = Rejected 400 "Message field is required".
Proof. repeat split. Qed.

(** ** [embedText] *)

(** X5: [embedText] returns the vector of the first entry of the response to
    the model [text-embedding-3-small], whatever entries follow; it raises
    what the call raises, and a TypeError when the response has no
    entry. *)
Theorem embedText_first_entry
  (embeddings_create : string -> string -> completion Embedding.Response)
  (text : string) :
  (forall v,
      embedText embeddings_create text = Normal v
      <-> exists item rest,
            embeddings_create "text-embedding-3-small"%string text
            = Normal {| Embedding.data := item :: rest |}
            /\ Embedding.embedding item = v)
  /\ (forall e,
        embedText embeddings_create text = Throw e
        <-> embeddings_create "text-embedding-3-small"%string text = Throw e
            \/ (embeddings_create "text-embedding-3-small"%string text
                = Normal {| Embedding.data := [] |}
                /\ e = "TypeError"%string)).
Proof.
  unfold embedText, bind.
  destruct (embeddings_create "text-embedding-3-small"%string text) as [[[|item rest]]|e0];
    simpl; split; intros x; split.
  - discriminate.
  - intros [item [rest [H _]]]. discriminate H.
  - intros H. injection H as <-. right. now split.
  - intros [H|[_ ->]]; [discriminate H|reflexivity].
  - intros H. injection H as <-. now exists item, rest.
  - intros [item' [rest' [H <-]]]. now injection H as -> _.
  - discriminate.
  - intros [H|[H _]]; discriminate H.
  - discriminate.
  - intros [item [rest [H _]]]. discriminate H.
  - intros H. injection H as <-. now left.
  - intros [H|[H _]]; [now injection H as ->|discriminate H].
Qed.

(** ** [seedDocuments] *)

Module SeedFacts.

Lemma seed_loop_cons embed text rest documents :
  seed_loop embed (text :: rest) documents
  = match embed text with
    | Normal v => seed_loop embed rest (documents ++ [{| content := text; embedding := v |}])
    | Throw e => (Throw e, documents)
    end.
Proof.
  simpl. unfold Eff.bind, Eff.await, Eff.modify. now destruct (embed text).
Qed.

Lemma seed_loop_run embed : forall ts documents,
  exists new k,
    snd (seed_loop embed ts documents) = documents ++ new
    /\ map content new = firstn k ts
    /\ Forall (embedded embed) new
    /\ match fst (seed_loop embed ts documents) with
       | Normal _ => k = length ts
       | Throw e => exists text, nth_error ts k = Some text /\ embed text = Throw e
       end.
Proof.
  induction ts as [|text rest IH]; intros documents.
  - exists [], 0%nat. simpl. rewrite app_nil_r.
    split; [reflexivity|]. split; [reflexivity|]. split; [constructor|reflexivity].
  - rewrite seed_loop_cons. destruct (embed text) as [v|e] eqn:E.
    + destruct (IH (documents ++ [{| content := text; embedding := v |}]))
        as [new [k [Hs [Hc [He Hr]]]]].
      exists ({| content := text; embedding := v |} :: new), (S k).
      rewrite Hs, <- app_assoc. simpl. rewrite Hc.
      split; [reflexivity|]. split; [reflexivity|]. split.
      * constructor; [exact E|exact He].
      * destruct (fst (seed_loop embed rest _)); [now subst k|exact Hr].
    + exists [], 0%nat. simpl. rewrite app_nil_r.
      split; [reflexivity|]. split; [reflexivity|]. split; [constructor|].
      now exists text.
Qed.

End SeedFacts.

(** X6: [seedDocuments] appends to the store, in the order of [texts], one
    document per text with the vector [embedText] returned for it. It
    stops at the first text whose embedding call rejects and raises that
    error; the documents appended before stay in the store. It returns
    normally exactly when all of [texts] were appended. *)
Theorem seedDocuments_appends
  (embed : string -> completion (list number)) (documents : list Document) :
  exists new k,
    snd (seedDocuments embed documents) = documents ++ new
    /\ map content new = firstn k texts
    /\ Forall (embedded embed) new
    /\ match fst (seedDocuments embed documents) with
       | Normal _ => k = length texts
       | Throw e => exists text, nth_error texts k = Some text /\ embed text = Throw e
       end.
Proof. apply SeedFacts.seed_loop_run. Qed.

Example seed_run :
  seedDocuments (fun text => Normal [of_uint63 (Uint63.of_Z (Z.of_nat (String.length text)))]) []
  = (Normal tt,
     [{| content := "REST APIs use HTTP methods and are stateless."; embedding := [45] |};
      {| content := "AWS Lambda is a serverless compute service."; embedding := [43] |};
      {| content := "Express.js is a minimal Node.js web framework."; embedding := [46] |}]).
Proof. vm_compute. reflexivity. Qed.

(** A seeding whose second embedding call rejects leaves a store of one
    document. *)
Example seed_partial :
  seedDocuments
    (fun text => if (String.length text =? 43)%nat then Throw "ETIMEDOUT"%string else Normal [1])
    []
  = (Throw "ETIMEDOUT"%string,
     [{| content := "REST APIs use HTTP methods and are stateless."; embedding := [1] |}]).
Proof. vm_compute. reflexivity. Qed.

(** ** More on [retrieveContext] *)

Lemma retrieveContext_stored
  (embedText : string -> completion (list number))
  (documents : list Document) (query : string) (q : list number) :
  embedText query = Normal q ->
  exists ranked,
    Permutation ranked documents
    /\ retrieveContext embedText documents query
       = Normal (join newline (map content (firstn 2 ranked))).
Proof.
  intros Hq.
  exists (sort (fun u v => by_score_desc (Ranking.candidate q u) (Ranking.candidate q v))
            documents).
  split; [apply RankingFacts.sort_perm|].
  rewrite retrieveContext_run, Hq. unfold bind, Ranking.candidates.
  rewrite RankingFacts.sort_map, firstn_map, map_map. reflexivity.
Qed.

(** X7: [retrieveContext] raises what the embedding of the query raises and
    nothing else. When the query is embedded it returns, whatever the
    scores, NaN included, the contents of stored documents: of the first
    two of some arrangement of the store, so of two different documents
    when the store has two, and of all of them when it has fewer. *)
Theorem retrieve_returns_stored
  (embedText : string -> completion (list number))
  (documents : list Document) (query : string) :
  match embedText query with
  | Throw e => retrieveContext embedText documents query = Throw e
  | Normal _ =>
      exists ranked,
        Permutation ranked documents
        /\ retrieveContext embedText documents query
           = Normal (join newline (map content (firstn 2 ranked)))
  end.
Proof.
  destruct (embedText query) as [q|e] eqn:E.
  - now apply retrieveContext_stored with q.
  - now rewrite retrieveContext_run, E.
Qed.

(** X8: after a seeding of the empty store that returned normally, the
    context of a query is two different ones of the three seed texts,
    joined by a newline. *)
Theorem seed_then_retrieve
  (embed : string -> completion (list number)) (documents : list Document)
  (query : string) (q : list number) :
  seedDocuments embed [] = (Normal tt, documents) ->
  embed query = Normal q ->
  exists t1 t2 t3,
    Permutation [t1; t2; t3] texts
    /\ retrieveContext embed documents query = Normal (t1 ++ newline ++ t2)%string.
Proof.
  intros Hseed Hq.
  destruct (SeedFacts.seed_loop_run embed texts []) as [new [k [Hs [Hc [_ Hr]]]]].
  change (seed_loop embed texts []) with (seedDocuments embed []) in Hs, Hr.
  rewrite Hseed in Hs, Hr. cbn [fst snd app] in Hs, Hr. subst new k.
  rewrite firstn_all in Hc.
  destruct (@retrieveContext_stored embed documents query q Hq) as [ranked [Hp Hres]].
  assert (Hpc : Permutation (map content ranked) texts)
    by (rewrite <- Hc; now apply Permutation_map).
  assert (Hlen : length (map content ranked) = 3%nat)
    by (rewrite (Permutation_length Hpc); reflexivity).
  rewrite Hres. rewrite <- firstn_map.
  destruct (map content ranked) as [|t1 [|t2 [|t3 [|t4 l]]]]; try discriminate Hlen.
  now exists t1, t2, t3.
Qed.

Lemma seed_then_retrieve_witness :
  exists t1 t2 t3,
    Permutation [t1; t2; t3] texts
    /\ retrieveContext
         (fun text => Normal [of_uint63 (Uint63.of_Z (Z.of_nat (String.length text))); 1])
         [{| content := "REST APIs use HTTP methods and are stateless."; embedding := [45; 1] |};
          {| content := "AWS Lambda is a serverless compute service."; embedding := [43; 1] |};
          {| content := "Express.js is a minimal Node.js web framework.";
             embedding := [46; 1] |}]
         "What is Lambda?"
       = Normal (t1 ++ newline ++ t2)%string.
Proof.
  apply (@seed_then_retrieve
           (fun text => Normal [of_uint63 (Uint63.of_Z (Z.of_nat (String.length text))); 1])
           _ "What is Lambda?"%string [15; 1]); reflexivity.
Defined.

(** ** The [/chat] handler *)

Module ChatFacts.

Section Run.
Variable Usage : Type.
Variable embed : string -> completion (list number).
Variable create : Request.t -> completion (Completion.t Usage).

Lemma chat_run documents message s :
  chat embed create documents message s
  = (Normal tt,
     match retrieveContext embed documents message with
     | Throw e => Chat.failed e s
     | Normal context =>
         match create (chat_request context message) with
         | Throw e => Chat.failed e s
         | Normal completion =>
             match Completion.choices completion with
             | [] => Chat.failed "TypeError"%string (Chat.registered s)
             | choice :: _ =>
                 {| response :=
                      response s
                      ++ [Json (ReplyBody (Completion.content (Completion.message choice)))];
                    log := log s ++ [TokensUsed (Completion.usage completion)];
                    routes := routes s ++ [("POST", "/chat-stream")]%string |}
             end
         end
     end).
Proof.
  unfold chat, Eff.try_catch, Eff.bind, Eff.await, console_log, respond, app_post,
    Eff.modify, Eff.throw, Eff.ret.
  destruct (retrieveContext embed documents message) as [context|e].
  - destruct (create (chat_request context message)) as [completion|e].
    + destruct completion as [[|choice rest] usage]; simpl.
      * unfold Chat.failed, Chat.registered. simpl. now rewrite <- app_assoc.
      * reflexivity.
    + unfold Chat.failed. simpl. now rewrite <- app_assoc.
  - unfold Chat.failed. simpl. now rewrite <- app_assoc.
Qed.

End Run.

End ChatFacts.

(** X9: the [/chat] handler never raises. It answers with one JSON body:
    either a reply, with the token usage logged, or status 500 and the
    error "AI service failed", with the error logged. *)
Theorem chat_answers_once
  (Usage : Type) (embed : string -> completion (list number))
  (create : Request.t -> completion (Completion.t Usage))
  (documents : list Document) (message : string) (s : server Usage) :
  fst (chat embed create documents message s) = Normal tt
  /\ ((exists r u,
         response (snd (chat embed create documents message s))
         = response s ++ [Json (ReplyBody r)]
         /\ log (snd (chat embed create documents message s)) = log s ++ [TokensUsed u])
      \/ (exists e,
            response (snd (chat embed create documents message s))
            = response s ++ [Status 500; Json (ErrorBody "AI service failed")]
            /\ log (snd (chat embed create documents message s)) = log s ++ [OpenAIError e])).
Proof.
  rewrite ChatFacts.chat_run. split; [reflexivity|]. cbn [snd].
  destruct (retrieveContext embed documents message) as [context|e];
    [|right; now exists e].
  destruct (create (chat_request context message)) as [[[|choice rest] usage]|e];
    cbn [Completion.choices Completion.usage].
  - right. now exists "TypeError"%string.
  - left. now eexists _, _.
  - right. now exists e.
Qed.

(** X10: the handler replies with [r] exactly when the retrieval returned a
    context, the completion call for the request built from that context
    and the message returned a completion, and [r] is the content of the
    message of its first choice. *)
Theorem chat_replies
  (Usage : Type) (embed : string -> completion (list number))
  (create : Request.t -> completion (Completion.t Usage))
  (documents : list Document) (message : string) (s : server Usage)
  (r : option string) :
  response (snd (chat embed create documents message s)) = response s ++ [Json (ReplyBody r)]
  <-> exists context completion choice rest,
        retrieveContext embed documents message = Normal context
        /\ create (chat_request context message) = Normal completion
        /\ Completion.choices completion = choice :: rest
        /\ Completion.content (Completion.message choice) = r.
Proof.
  rewrite ChatFacts.chat_run. cbn [snd]. split.
  - destruct (retrieveContext embed documents message) as [context|e];
      cbn [response Chat.failed].
    + destruct (create (chat_request context message)) as [[[|choice rest] usage]|e] eqn:E;
        cbn [Completion.choices response Chat.failed Chat.registered]; intros H;
        apply app_inv_head in H; try discriminate H.
      injection H as H.
      exists context, {| Completion.choices := choice :: rest; Completion.usage := usage |},
        choice, rest.
      split; [reflexivity|]. split; [exact E|]. split; [reflexivity|exact H].
    + intros H. apply app_inv_head in H. discriminate H.
  - intros [context [completion [choice [rest [-> [-> [-> <-]]]]]]]. reflexivity.
Qed.

(** X11: the error [e] is logged exactly when the retrieval raised [e], or
    the completion call raised [e], or the completion has no choice and
    [e] is the TypeError of reading its first one. *)
Theorem chat_logs_failure
  (Usage : Type) (embed : string -> completion (list number))
  (create : Request.t -> completion (Completion.t Usage))
  (documents : list Document) (message : string) (s : server Usage) (e : error) :
  log (snd (chat embed create documents message s)) = log s ++ [OpenAIError e]
  <-> retrieveContext embed documents message = Throw e
      \/ exists context,
           retrieveContext embed documents message = Normal context
           /\ (create (chat_request context message) = Throw e
               \/ exists completion,
                    create (chat_request context message) = Normal completion
                    /\ Completion.choices completion = []
                    /\ e = "TypeError"%string).
Proof.
  rewrite ChatFacts.chat_run. cbn [snd]. split.
  - destruct (retrieveContext embed documents message) as [context|e0]; cbn [log Chat.failed].
    + destruct (create (chat_request context message)) as [[[|choice rest] usage]|e0] eqn:E;
        cbn [Completion.choices log Chat.failed Chat.registered]; intros H;
        apply app_inv_head in H; try discriminate H; injection H as <-; right;
        exists context; (split; [reflexivity|]).
      * right. eexists. split; [exact E|]. split; reflexivity.
      * left. exact E.
    + intros H. apply app_inv_head in H. injection H as <-. now left.
  - intros [->|[context [-> [->|[completion [-> [Hc ->]]]]]]]; try reflexivity.
    now rewrite Hc.
Qed.

(** X12: the handler registers a further [/chat-stream] route in each request
    whose completion call returned, also when the completion then has no
    choice and the request is answered with status 500; it registers none
    in the other requests, and never removes one. *)
Theorem chat_registers_stream_route
  (Usage : Type) (embed : string -> completion (list number))
  (create : Request.t -> completion (Completion.t Usage))
  (documents : list Document) (message : string) (s : server Usage) :
  routes (snd (chat embed create documents message s))
  = routes s
    ++ match retrieveContext embed documents message with
       | Normal context =>
           match create (chat_request context message) with
           | Normal _ => [("POST", "/chat-stream")]%string
           | Throw _ => []
           end
       | Throw _ => []
       end.
Proof.
  rewrite ChatFacts.chat_run. cbn [snd].
  destruct (retrieveContext embed documents message) as [context|e];
    [|symmetry; apply app_nil_r].
  destruct (create (chat_request context message)) as [[[|choice rest] usage]|e];
    try reflexivity.
  symmetry; apply app_nil_r.
Qed.

(** X13: the handler consults the completion service only for the request it
    builds from the retrieved context and the message: two services that
    agree on that request give the same run. *)
Theorem chat_single_request
  (Usage : Type) (embed : string -> completion (list number))
  (create create' : Request.t -> completion (Completion.t Usage))
  (documents : list Document) (message : string) (s : server Usage) :
  (forall context,
      retrieveContext embed documents message = Normal context ->
      create (chat_request context message) = create' (chat_request context message)) ->
  chat embed create documents message s = chat embed create' documents message s.
Proof.
  intros H. rewrite !ChatFacts.chat_run.
  destruct (retrieveContext embed documents message) as [context|e]; [|reflexivity].
  now rewrite (H context eq_refl).
Qed.

Lemma chat_single_request_witness :
  chat (fun _ => Normal [1; 0.125])
    (fun request =>
       if (length (Request.messages request) =? 2)%nat
       then Normal {| Completion.choices :=
                        [{| Completion.message := {| Completion.content := Some "4"%string |} |}];
                      Completion.usage := 12%nat |}
       else Throw "BadRequest"%string)
    scenario_store "2+2?" (server0 nat)
  = chat (fun _ => Normal [1; 0.125])
      (fun _ =>
         Normal {| Completion.choices :=
                     [{| Completion.message := {| Completion.content := Some "4"%string |} |}];
                   Completion.usage := 12%nat |})
      scenario_store "2+2?" (server0 nat).
Proof.
  apply (@chat_single_request nat (fun _ => Normal [1; 0.125])
           (fun request =>
              if (length (Request.messages request) =? 2)%nat
              then Normal {| Completion.choices :=
                               [{| Completion.message :=
                                     {| Completion.content := Some "4"%string |} |}];
                             Completion.usage := 12%nat |}
              else Throw "BadRequest"%string)
           (fun _ =>
              Normal {| Completion.choices :=
                          [{| Completion.message :=
                                {| Completion.content := Some "4"%string |} |}];
                        Completion.usage := 12%nat |})
           scenario_store "2+2?"%string (server0 nat)).
  intros context _. reflexivity.
Defined.

(** ** The [/chat] route *)

(** X14: when [message] is a string with a character other than white
    space, the route runs the handler on it. For every other body it
    answers with status 400 and one of the three messages of the
    middleware, whatever the services would do, and leaves the console
    and the routes alone. *)
Theorem chat_route_guard
  (Usage : Type) (embed : string -> completion (list number))
  (create : Request.t -> completion (Completion.t Usage))
  (documents : list Document) (message : option json) (s : server Usage) :
  (exists text,
      message = Some (JString text) /\ blank text = false
      /\ chat_route embed create documents message s = chat embed create documents text s)
  \/ (exists msg,
        (forall text, message = Some (JString text) -> blank text = true)
        /\ In msg ["Message field is required"; "Message must be a string";
                   "Message cannot be empty"]%string
        /\ chat_route embed create documents message s
           = (Normal tt,
              {| response := response s ++ [Status 400; Json (ErrorBody msg)];
                 log := log s; routes := routes s |})).
Proof.
  unfold chat_route, validateChatInput.
  destruct (falsy message) eqn:F.
  - right. eexists. split; [|split; [left; reflexivity|]].
    + intros text ->. destruct text; [reflexivity|discriminate F].
    + unfold Eff.bind, respond, Eff.modify. simpl. now rewrite <- app_assoc.
  - destruct message as [[|b|n|text|items|fields]|];
      try (right; eexists; split; [discriminate|split; [right; left; reflexivity|]];
           unfold Eff.bind, respond, Eff.modify; simpl; now rewrite <- app_assoc).
    rewrite ValidateFacts.trim_blank. destruct (blank text) eqn:B.
    + right. eexists. split; [|split; [right; right; left; reflexivity|]].
      * intros text' H. now injection H as <-.
      * unfold Eff.bind, respond, Eff.modify. simpl. now rewrite <- app_assoc.
    + left. now exists text.
Qed.

(** ** The [/chat-stream] handler, for every stream *)

Module StreamFacts.



End StreamFacts.


(** ** Components that are not finite *)

Module NonFiniteFacts.

Import NonFinite.

Lemma non_finite_spec x : non_finite x = true -> poisoned (Prim2SF x).
Proof.
  unfold non_finite. intros H. apply orb_prop in H as [H|H].
  - now rewrite (Float64Facts.is_nan_true _ H).
  - unfold is_infinity in H. rewrite eqb_spec, abs_spec in H.
    change (Prim2SF infinity) with (S754_infinity false) in H.
    destruct (Prim2SF x) as [s|s| |s m e]; simpl; trivial; discriminate H.
Qed.

Lemma SFadd_poisoned_l x y : poisoned x -> poisoned (SF64add x y).
Proof.
  destruct x as [s|s| |s m e]; try contradiction; intros _;
    destruct y as [s'|s'| |s' m' e']; simpl; trivial.
  destruct s, s'; exact I.
Qed.

Lemma SFadd_poisoned_r x y : poisoned y -> poisoned (SF64add x y).
Proof.
  destruct y as [s'|s'| |s' m' e']; try contradiction; intros _;
    destruct x as [s|s| |s m e]; simpl; trivial.
  destruct s, s'; exact I.
Qed.

Lemma SFmul_poisoned_l x y : poisoned x -> poisoned (SF64mul x y).
Proof.
  destruct x as [s|s| |s m e]; try contradiction; intros _;
    destruct y as [s'|s'| |s' m' e']; simpl; trivial.
Qed.

Lemma SFmul_poisoned_r x y : poisoned y -> poisoned (SF64mul x y).
Proof.
  destruct y as [s'|s'| |s' m' e']; try contradiction; intros _;
    destruct x as [s|s| |s m e]; simpl; trivial.
Qed.

Lemma SFsqrt_poisoned x : poisoned x -> poisoned (SF64sqrt x).
Proof.
  destruct x as [s|[|]| |s m e]; try contradiction; intros _; exact I.
Qed.

Lemma SFdiv_poisoned x y : poisoned x -> poisoned y -> SF64div x y = S754_nan.
Proof.
  destruct x as [s|s| |s m e]; try contradiction; intros _;
    destruct y as [s'|s'| |s' m' e']; try contradiction; intros _; reflexivity.
Qed.

Lemma add_poisoned_l x y : poisoned_float x -> poisoned_float (x + y).
Proof. unfold poisoned_float. rewrite add_spec. apply SFadd_poisoned_l. Qed.

Lemma add_poisoned_r x y : poisoned_float y -> poisoned_float (x + y).
Proof. unfold poisoned_float. rewrite add_spec. apply SFadd_poisoned_r. Qed.

Lemma mul_poisoned_l x y : poisoned_float x -> poisoned_float (x * y).
Proof. unfold poisoned_float. rewrite mul_spec. apply SFmul_poisoned_l. Qed.

Lemma mul_poisoned_r x y : poisoned_float y -> poisoned_float (x * y).
Proof. unfold poisoned_float. rewrite mul_spec. apply SFmul_poisoned_r. Qed.

Lemma sqrt_poisoned x : poisoned_float x -> poisoned_float (sqrt x).
Proof. unfold poisoned_float. rewrite sqrt_spec. apply SFsqrt_poisoned. Qed.

Lemma div_poisoned x y : poisoned_float x -> poisoned_float y -> x / y = nan.
Proof.
  unfold poisoned_float. intros Hx Hy. apply Prim2SF_inj. rewrite div_spec.
  now apply SFdiv_poisoned.
Qed.

Lemma add_pair_spoiled s x y : spoiled s -> spoiled (Loop.add_pair s x y).
Proof.
  intros [Hd Hm]. split; simpl.
  - now apply add_poisoned_l.
  - destruct Hm as [H|H]; [left|right]; now apply add_poisoned_l.
Qed.

Lemma add_pair_spoils s x y :
  poisoned_float x \/ poisoned_float y -> spoiled (Loop.add_pair s x y).
Proof.
  intros [H|H]; split; simpl.
  - now apply add_poisoned_r, mul_poisoned_l.
  - left. now apply add_poisoned_r, mul_poisoned_l.
  - now apply add_poisoned_r, mul_poisoned_r.
  - right. now apply add_poisoned_r, mul_poisoned_r.
Qed.

Lemma run_spoiled a : forall b s, spoiled s -> spoiled (Loop.run a b s).
Proof.
  induction a as [|x a IH]; intros b s H; [exact H|].
  simpl. now apply IH, add_pair_spoiled.
Qed.

Lemma run_spoils a : forall b s i,
  (i < length a)%nat ->
  poisoned_float (index a i) \/ poisoned_float (index b i) ->
  spoiled (Loop.run a b s).
Proof.
  induction a as [|x a IH]; intros b s i Hi H; simpl in Hi; [lia|].
  destruct i as [|i]; simpl.
  - apply run_spoiled, add_pair_spoils.
    rewrite !LoopFacts.index_0 in H. exact H.
  - apply (IH (tl b) _ i); [lia|].
    rewrite !LoopFacts.index_tl in H. exact H.
Qed.

End NonFiniteFacts.

(** X16: a component that is not finite spoils the score: when a
    component of [a], or the component of [b] at an index of [a], is NaN
    or an infinity, the score is NaN, whatever the other components are.
    A component [b] lacks at an index of [a] reads as NaN, so this is
    also the case of a shorter [b]. *)
Theorem cosineSimilarity_non_finite (a b : list number) (i : nat) :
  (i < length a)%nat ->
  non_finite (index a i) = true \/ non_finite (index b i) = true ->
  cosineSimilarity a b = Normal nan.
Proof.
  intros Hi H.
  assert (H' : NonFinite.poisoned_float (index a i)
               \/ NonFinite.poisoned_float (index b i))
    by (destruct H as [H|H]; [left|right]; now apply NonFiniteFacts.non_finite_spec).
  rewrite cosineSimilarity_run. f_equal.
  destruct (@NonFiniteFacts.run_spoils a b sums0 i Hi H') as [Hd Hm].
  apply NonFiniteFacts.div_poisoned; [exact Hd|].
  destruct Hm as [Hm|Hm].
  - now apply NonFiniteFacts.mul_poisoned_l, NonFiniteFacts.sqrt_poisoned.
  - now apply NonFiniteFacts.mul_poisoned_r, NonFiniteFacts.sqrt_poisoned.
Qed.

Lemma cosineSimilarity_non_finite_witness :
  cosineSimilarity [1; infinity; 2] [3; 0.5; 1] = Normal nan.
Proof.
  apply (@cosineSimilarity_non_finite [1; infinity; 2] [3; 0.5; 1] 1%nat).
  - simpl. lia.
  - left. reflexivity.
Defined.
